(** * A model of the modal dialog and of the connections client

  Sources embedded here:
  - [mathesar_ui/src/component-library/modal/IndependentModal.svelte]
    (module [IndependentModal]);
  - the window chrome [Window.svelte] that the modal wraps
    (module [Window]);
  - [mathesar_ui/src/api/connections.ts] (module [Connections]).

  A Svelte component is a bag of variables (its context), reactive
  statements [$: ...] that are re-run by the view-update cycle when one of
  the variables they read has been invalidated, and a template that is a
  function of the context.  The model keeps these three layers apart:
  assignments only invalidate, [flush] runs the reactive statements and
  patches the document, and a suspended [await tick()] is an entry of a
  first-in first-out queue that is resumed after the flush.  Nodes that
  carry an [out:] transition stay in the document, listeners included,
  until an animation frame finds their 150 ms over. *)

From Stdlib Require Import Bool List String Ascii NArith ZArith Lia.
From Stdlib Require Import DecimalString DecimalPos DecimalZ.
Import ListNotations.
Open Scope string_scope.
Open Scope bool_scope.
#[local] Set Warnings "-register-all".


(** ** The rendered tree *)

Module Dom.

(** [ModalCloseAction] and [ModalWidth] of [modalTypes]; only the literals
    the component uses are needed. *)
Inductive ModalCloseAction : Set := button | esc | overlay.
Inductive ModalWidth : Set := regular | medium | large.

(** [modalId : number | string | undefined]; [undefined] is [None]. *)
Inductive ModalId : Set :=
| IdNumber (n : N)
| IdString (s : string).

(** The callbacks that the two templates attach to nodes or to the
    browser window. *)
Inductive handler : Set :=
| HandleKeydown           (* IndependentModal.handleKeydown *)
| HandleOverlayClick      (* IndependentModal.handleOverlayClick *)
| HandleCloseButtonClick. (* Window.handleCloseButtonClick *)

Inductive attr : Set :=
| Attr (name value : string)
| DataModalId (id : ModalId)
| On (event : string) (h : handler)
| Use (action : string)
| Transition (direction name : string) (y duration : N).

(** A node of the rendered tree.  [Parent markup] stands for markup that the
    parent component passed through a slot: its nodes, scoped classes and
    listeners belong to the parent, so the tree keeps it opaque. *)
Inductive node : Set :=
| Text (s : string)
| Parent (markup : string)
| Element (tag : string) (classes : list string) (attrs : list attr)
          (children : list node).

Definition ModalCloseAction_eqb (a b : ModalCloseAction) : bool :=
  match a, b with
  | button, button | esc, esc | overlay, overlay => true
  | _, _ => false
  end.

Definition ModalWidth_eqb (a b : ModalWidth) : bool :=
  match a, b with
  | regular, regular | medium, medium | large, large => true
  | _, _ => false
  end.

(** [Array.prototype.includes] on an array of close actions. *)
Definition includes (l : list ModalCloseAction) (a : ModalCloseAction) : bool :=
  existsb (ModalCloseAction_eqb a) l.

(** A [class:name={cond}] directive. *)
Definition class_if (name : string) (cond : bool) : list string :=
  if cond then [name] else [].

(** JavaScript truthiness of a [string | undefined]. *)
Definition truthy (t : option string) : bool :=
  match t with
  | None => false
  | Some s => negb (s =? "")
  end.

(** [t ?? ''] *)
Definition or_empty (t : option string) : string :=
  match t with
  | None => ""
  | Some s => s
  end.

(** What a [<slot>] element renders: the content the parent supplied, and
    nothing when it supplied none (neither template has fallback
    content). *)
Definition slot (content : option (list node)) : list node :=
  match content with
  | None => []
  | Some ns => ns
  end.

(** The content of a slot as the application hands it to a component. *)
Definition parent_markup (content : option string) : option (list node) :=
  match content with
  | None => None
  | Some markup => Some [Parent markup]
  end.

(** [$$slots.name]: whether the parent supplied the slot at all. *)
Definition has_slot (content : option (list node)) : bool :=
  match content with
  | None => false
  | Some _ => true
  end.

(** Every node of a tree, the root first. *)
Fixpoint flatten (n : node) : list node :=
  n :: match n with
       | Text _ | Parent _ => []
       | Element _ _ _ children => flat_map flatten children
       end.

Definition node_classes (n : node) : list string :=
  match n with
  | Text _ | Parent _ => []
  | Element _ classes _ _ => classes
  end.

Definition node_attrs (n : node) : list attr :=
  match n with
  | Text _ | Parent _ => []
  | Element _ _ attrs _ => attrs
  end.

Definition node_has_class (cls : string) (n : node) : bool :=
  existsb (String.eqb cls) (node_classes n).

(** The nodes of a fragment that carry the class [cls]. *)
Definition with_class (cls : string) (fragment : list node) : list node :=
  filter (node_has_class cls) (flat_map flatten fragment).

Definition has_class (cls : string) (fragment : list node) : bool :=
  match with_class cls fragment with
  | [] => false
  | _ :: _ => true
  end.

Definition listener (event : string) (a : attr) : list handler :=
  match a with
  | On e h => if e =? event then [h] else []
  | _ => []
  end.

(** The handlers that an [event] fired on a node of class [cls] reaches. *)
Definition listeners (cls event : string) (fragment : list node) : list handler :=
  flat_map (fun n => flat_map (listener event) (node_attrs n))
           (with_class cls fragment).

(** The handlers attached anywhere in the fragment for [event]. *)
Definition listeners_anywhere (event : string) (fragment : list node) : list handler :=
  flat_map (fun n => flat_map (listener event) (node_attrs n))
           (flat_map flatten fragment).

(** Modelled from the spec: the [portal] action
    ([common/actions/portal]) is not among the sources; per the spec it
    attaches the node it is used on to a fixed anchor of the document instead
    of its lexical parent. *)
Definition is_portal (a : attr) : bool :=
  match a with
  | Use action => action =? "portal"
  | _ => false
  end.

(** The nodes that the [portal] action re-parents to the out-of-flow
    anchor. *)
Definition at_anchor (fragment : list node) : list node :=
  filter (fun n => existsb is_portal (node_attrs n)) (flat_map flatten fragment).

End Dom.

(** ** Window.svelte *)

Module Window.
Import Dom.

Record Props : Set := {
  title : option string;   (* export let title: string | undefined = undefined *)
  hasCloseButton : bool;   (* export let hasCloseButton = true *)
  canScrollBody : bool;    (* export let canScrollBody = true *)
  hasBodyPadding : bool    (* export let hasBodyPadding = true *)
}.

(** The content the parent passes for the three slots; [None] when the
    parent passes nothing for that slot. *)
Record Slots : Set := {
  slot_title : option (list node);
  slot_default : option (list node);
  slot_footer : option (list node)
}.

(** [{#if $$slots.title || title || hasCloseButton}] *)
Definition shows_title_bar (p : Props) (sl : Slots) : bool :=
  has_slot (slot_title sl) || truthy (title p) || hasCloseButton p.

(** Modelled from the spec: [Button] and [Icon] are components that are not
    among the sources; they are kept as elements of those names, and a click
    on the button reaches its [on:click] handler (the spec's close affordance
    that emits a dismissal request when activated). *)
Definition close_button : node :=
  Element "Button" ["close-button"]
          [Attr "appearance" "plain"; On "click" HandleCloseButtonClick]
          [Element "Icon" [] [Attr "spread" "iconClose"] []].

Definition title_bar (p : Props) (sl : Slots) : node :=
  Element "div" ["title-bar"] []
          (Element "div" ["title"] []
                   (slot (slot_title sl) ++ [Text (or_empty (title p))])
           :: (if hasCloseButton p then [close_button] else [])).

(** [function handleCloseButtonClick() { dispatch('close'); }]: the event
    that the window sends to whoever embeds it. *)
Definition handleCloseButtonClick : string := "close".

(** The template of the component. *)
Definition render (p : Props) (sl : Slots) : list node :=
  [Element "div"
           ("window" :: class_if "can-scroll-body" (canScrollBody p)
                     ++ class_if "has-body-padding" (hasBodyPadding p))
           []
           ((if shows_title_bar p sl then [title_bar p sl] else [])
            ++ [Element "div" ["body"] [] (slot (slot_default sl));
                Element "div" ["footer"] [] (slot (slot_footer sl))])].

End Window.

(** ** IndependentModal.svelte *)

Module IndependentModal.
Import Dom.

(** The exported variables of the script block, with their defaults in
    [default_props]. *)
Record Props : Set := {
  modalId : option ModalId;
  isOpen : bool;
  title : option string;
  size : ModalWidth;
  allowClose : bool;
  hasOverlay : bool;
  closeOn : list ModalCloseAction;
  canScrollBody : bool
}.

Definition default_props : Props :=
  {| modalId := None;
     isOpen := false;
     title := None;
     size := regular;
     allowClose := true;
     hasOverlay := true;
     closeOn := [button];
     canScrollBody := true |}.

(** What the application passes for the modal's title, default and footer
    slots ([None]: nothing passed). *)
Record Slots : Set := {
  slot_title : option string;
  slot_default : option string;
  slot_footer : option string
}.

Definition no_slots : Slots :=
  {| slot_title := None; slot_default := None; slot_footer := None |}.

(** The variables of the context that an assignment can invalidate. *)
Inductive var : Set :=
| v_modalId | v_isOpen | v_title | v_size
| v_allowClose | v_hasOverlay | v_closeOn | v_canScrollBody
| v_closeOnButton | v_closeOnEsc | v_closeOnOverlay.

Definition var_eqb (a b : var) : bool :=
  match a, b with
  | v_modalId, v_modalId | v_isOpen, v_isOpen | v_title, v_title
  | v_size, v_size | v_allowClose, v_allowClose
  | v_hasOverlay, v_hasOverlay | v_closeOn, v_closeOn
  | v_canScrollBody, v_canScrollBody
  | v_closeOnButton, v_closeOnButton | v_closeOnEsc, v_closeOnEsc
  | v_closeOnOverlay, v_closeOnOverlay => true
  | _, _ => false
  end.

Definition is_dirty (v : var) (d : list var) : bool := existsb (var_eqb v) d.

(** The nodes that the [{#if isOpen}] block has in the document.
    - [shown]: the values its nodes were last patched with.  A patch only
      touches what depends on a dirty variable, so these can lag behind the
      context.  [isOpen shown] is true, and [hasOverlay shown] tells whether
      the overlay node is in the document;
    - [shown_closeOnButton]: the [hasCloseButton] the window was last given;
    - [leaving]: when the block is on its way out, the milliseconds left of
      its out-transitions;
    - [overlay_leaving]: the same for the overlay alone, when [hasOverlay]
      was switched off under an open modal. *)
Record Block : Set := {
  shown : Props;
  shown_closeOnButton : bool;
  leaving : option N;
  overlay_leaving : option N
}.

(** One component instance.
    - [props]: the current values of the exported variables;
    - [closeOnButton], [closeOnEsc], [closeOnOverlay]: the variables assigned
      by the three reactive declarations, holding what their last run
      computed;
    - [dirty]: the variables invalidated since the last flush;
    - [suspended]: the calls of [dispatchOpenOrClose] that wait at
      [await tick()], oldest first, each with its argument [_isOpen];
    - [dispatched]: the events dispatched to the parent so far, oldest
      first;
    - [block]: what the [{#if isOpen}] block has in the document, if
      anything. *)
Record state : Set := {
  props : Props;
  slots : Slots;
  closeOnButton : bool;
  closeOnEsc : bool;
  closeOnOverlay : bool;
  dirty : list var;
  suspended : list bool;
  dispatched : list string;
  block : option Block
}.

(** *** The template *)

(** [<Window {canScrollBody} hasCloseButton={closeOnButton} on:close={close}>]
    with its three slot fillers.  The filler of the title slot is a [<div>]
    that the modal always passes; the window's own [title] and
    [hasBodyPadding] are left at their defaults. *)
Definition window_props (p : Props) (closeOnButton : bool) : Window.Props :=
  {| Window.title := None;
     Window.hasCloseButton := closeOnButton;
     Window.canScrollBody := canScrollBody p;
     Window.hasBodyPadding := true |}.

Definition window_slots (p : Props) (sl : Slots) : Window.Slots :=
  {| Window.slot_title :=
       Some [Element "div" [] []
                     (slot (parent_markup (slot_title sl))
                      ++ [Text (or_empty (title p))])];
     Window.slot_default := Some (slot (parent_markup (slot_default sl)));
     Window.slot_footer := Some (slot (parent_markup (slot_footer sl))) |}.

Definition overlay_node : node :=
  Element "div" ["overlay"]
          [On "click" HandleOverlayClick;
           Transition "in" "fade" 0 150;
           Transition "out" "fade" 0 150]
          [].

Definition data_modal_id (id : option ModalId) : list attr :=
  match id with
  | None => []
  | Some i => [DataModalId i]
  end.

(** The [{#if isOpen} ... {/if}] block. *)
Definition render_modal (p : Props) (sl : Slots) (closeOnButton : bool) : list node :=
  if isOpen p then
    [Element "div" ["modal"] (data_modal_id (modalId p) ++ [Use "portal"])
             ((if hasOverlay p then [overlay_node] else [])
              ++ [Element "div"
                          ("window-positioner"
                             :: class_if "width-regular" (ModalWidth_eqb (size p) regular)
                             ++ class_if "width-medium" (ModalWidth_eqb (size p) medium)
                             ++ class_if "width-large" (ModalWidth_eqb (size p) large))
                          [Transition "in" "fly" 20 150;
                           Transition "out" "fly" 20 150]
                          (Window.render (window_props p closeOnButton)
                                         (window_slots p sl))])]
  else [].

Definition render (s : state) : list node :=
  render_modal (props s) (slots s) (closeOnButton s).

(** What the instance has in the document, at the portal's anchor: the nodes
    of its block, as they were last patched. *)
Definition dom (s : state) : list node :=
  match block s with
  | None => []
  | Some b => render_modal (shown b) (slots s) (shown_closeOnButton b)
  end.

(** [<svelte:window on:keydown={handleKeydown} />]: the listeners that the
    component registers on the browser window, outside its own subtree. *)
Definition window_listeners : list (string * handler) :=
  [("keydown", HandleKeydown)].

(** *** Assignments and invalidation *)

Definition set_modalId (v : option ModalId) (p : Props) : Props :=
  {| modalId := v; isOpen := isOpen p; title := title p; size := size p;
     allowClose := allowClose p; hasOverlay := hasOverlay p;
     closeOn := closeOn p; canScrollBody := canScrollBody p |}.

Definition set_isOpen (v : bool) (p : Props) : Props :=
  {| modalId := modalId p; isOpen := v; title := title p; size := size p;
     allowClose := allowClose p; hasOverlay := hasOverlay p;
     closeOn := closeOn p; canScrollBody := canScrollBody p |}.

Definition set_title (v : option string) (p : Props) : Props :=
  {| modalId := modalId p; isOpen := isOpen p; title := v; size := size p;
     allowClose := allowClose p; hasOverlay := hasOverlay p;
     closeOn := closeOn p; canScrollBody := canScrollBody p |}.

Definition set_size (v : ModalWidth) (p : Props) : Props :=
  {| modalId := modalId p; isOpen := isOpen p; title := title p; size := v;
     allowClose := allowClose p; hasOverlay := hasOverlay p;
     closeOn := closeOn p; canScrollBody := canScrollBody p |}.

Definition set_allowClose (v : bool) (p : Props) : Props :=
  {| modalId := modalId p; isOpen := isOpen p; title := title p; size := size p;
     allowClose := v; hasOverlay := hasOverlay p;
     closeOn := closeOn p; canScrollBody := canScrollBody p |}.

Definition set_hasOverlay (v : bool) (p : Props) : Props :=
  {| modalId := modalId p; isOpen := isOpen p; title := title p; size := size p;
     allowClose := allowClose p; hasOverlay := v;
     closeOn := closeOn p; canScrollBody := canScrollBody p |}.

Definition set_closeOn (v : list ModalCloseAction) (p : Props) : Props :=
  {| modalId := modalId p; isOpen := isOpen p; title := title p; size := size p;
     allowClose := allowClose p; hasOverlay := hasOverlay p;
     closeOn := v; canScrollBody := canScrollBody p |}.

Definition set_canScrollBody (v : bool) (p : Props) : Props :=
  {| modalId := modalId p; isOpen := isOpen p; title := title p; size := size p;
     allowClose := allowClose p; hasOverlay := hasOverlay p;
     closeOn := closeOn p; canScrollBody := v |}.

Definition with_props (p : Props) (s : state) : state :=
  {| props := p; slots := slots s;
     closeOnButton := closeOnButton s; closeOnEsc := closeOnEsc s;
     closeOnOverlay := closeOnOverlay s;
     dirty := dirty s; suspended := suspended s;
     dispatched := dispatched s; block := block s |}.

Definition with_permissions (b e o : bool) (s : state) : state :=
  {| props := props s; slots := slots s;
     closeOnButton := b; closeOnEsc := e; closeOnOverlay := o;
     dirty := dirty s; suspended := suspended s;
     dispatched := dispatched s; block := block s |}.

Definition with_dirty (d : list var) (s : state) : state :=
  {| props := props s; slots := slots s;
     closeOnButton := closeOnButton s; closeOnEsc := closeOnEsc s;
     closeOnOverlay := closeOnOverlay s;
     dirty := d; suspended := suspended s;
     dispatched := dispatched s; block := block s |}.

Definition with_block (b : option Block) (s : state) : state :=
  {| props := props s; slots := slots s;
     closeOnButton := closeOnButton s; closeOnEsc := closeOnEsc s;
     closeOnOverlay := closeOnOverlay s;
     dirty := dirty s; suspended := suspended s;
     dispatched := dispatched s; block := b |}.

Definition make_dirty (x : var) (s : state) : state :=
  {| props := props s; slots := slots s;
     closeOnButton := closeOnButton s; closeOnEsc := closeOnEsc s;
     closeOnOverlay := closeOnOverlay s;
     dirty := x :: dirty s; suspended := suspended s;
     dispatched := dispatched s; block := block s |}.

Definition with_suspended (q : list bool) (s : state) : state :=
  {| props := props s; slots := slots s;
     closeOnButton := closeOnButton s; closeOnEsc := closeOnEsc s;
     closeOnOverlay := closeOnOverlay s;
     dirty := dirty s; suspended := q;
     dispatched := dispatched s; block := block s |}.

(** Equality of two optional values, as [!==] sees primitives. *)
Definition option_eqb {A : Type} (eqb : A -> A -> bool) (a b : option A) : bool :=
  match a, b with
  | None, None => true
  | Some x, Some y => eqb x y
  | _, _ => false
  end.

Definition ModalId_eqb (a b : ModalId) : bool :=
  match a, b with
  | IdNumber m, IdNumber n => N.eqb m n
  | IdString x, IdString y => String.eqb x y
  | _, _ => false
  end.

(** The runtime's guard on an assignment to the variable [x]: the new
    context [p] is stored, and the variable is marked dirty, only when the
    assigned value is not equal to the old one ([changed]); an assignment of
    the value a primitive variable already holds leaves the instance as it
    is.  An array is an object, and an object always counts as changed. *)
Definition invalidate (x : var) (changed : bool) (p : Props) (s : state) : state :=
  if changed then make_dirty x (with_props p s) else s.

(** *** The script block *)

(** [function close() { isOpen = false; }] *)
Definition close (s : state) : state :=
  invalidate v_isOpen (negb (Bool.eqb (isOpen (props s)) false))
             (set_isOpen false (props s)) s.

(** [if (event.key === 'Escape' && isOpen && closeOnEsc) close();] *)
Definition handleKeydown (key : string) (s : state) : state :=
  if (key =? "Escape") && isOpen (props s) && closeOnEsc s then close s else s.

(** [if (closeOnOverlay) close();] *)
Definition handleOverlayClick (s : state) : state :=
  if closeOnOverlay s then close s else s.

(** [dispatch(type)] of [createEventDispatcher]. *)
Definition dispatch (type : string) (s : state) : state :=
  {| props := props s; slots := slots s;
     closeOnButton := closeOnButton s; closeOnEsc := closeOnEsc s;
     closeOnOverlay := closeOnOverlay s;
     dirty := dirty s; suspended := suspended s;
     dispatched := dispatched s ++ [type]; block := block s |}.

(** [async function dispatchOpenOrClose(_isOpen)], up to its [await tick()]:
    the call is parked with its argument. *)
Definition dispatchOpenOrClose (_isOpen : bool) (s : state) : state :=
  with_suspended (suspended s ++ [_isOpen]) s.

(** The rest of [dispatchOpenOrClose] after the [await]:
    [dispatch(_isOpen ? 'open' : 'close')]. *)
Definition dispatchOpenOrClose_resumed (_isOpen : bool) (s : state) : state :=
  dispatch (if _isOpen then "open" else "close") s.

(** The three reactive declarations
    [$: closeOnX = allowClose && closeOn.includes('x')]. *)
Definition permission (p : Props) (a : ModalCloseAction) : bool :=
  allowClose p && includes (closeOn p) a.

(** The variables among the three that an assignment of [b], [e] and [o]
    changes: a reactive declaration invalidates the variable it assigns like
    any other assignment does. *)
Definition changed_permissions (b e o : bool) (s : state) : list var :=
  (if Bool.eqb (closeOnButton s) b then [] else [v_closeOnButton])
  ++ (if Bool.eqb (closeOnEsc s) e then [] else [v_closeOnEsc])
  ++ (if Bool.eqb (closeOnOverlay s) o then [] else [v_closeOnOverlay]).

(** The reactive statements, each run when a variable it reads is dirty:
    the three declarations read [allowClose] and [closeOn],
    [$: void dispatchOpenOrClose(isOpen)] reads [isOpen]. *)
Definition update (s : state) : state :=
  let d := dirty s in
  let s1 :=
    if is_dirty v_allowClose d || is_dirty v_closeOn d
    then with_dirty
           (changed_permissions (permission (props s) button)
                                (permission (props s) esc)
                                (permission (props s) overlay) s ++ d)
           (with_permissions (permission (props s) button)
                             (permission (props s) esc)
                             (permission (props s) overlay) s)
    else s in
  if is_dirty v_isOpen d then dispatchOpenOrClose (isOpen (props s1)) s1 else s1.

(** *** Patching the document *)

(** [duration: 150] of the four transitions. *)
Definition duration : N := 150.

(** The block as [{#if isOpen}] creates it: every node from the context. *)
Definition create_block (p : Props) (closeOnButton : bool) : Block :=
  {| shown := set_isOpen true p;
     shown_closeOnButton := closeOnButton;
     leaving := None;
     overlay_leaving := None |}.

(** [new] where the variable [x] is dirty, [old] elsewhere: the guard
    [if (dirty & x)] around each update of an attribute, a class, a text or
    a prop of the window. *)
Definition pick {A : Type} (x : var) (d : list var) (new old : A) : A :=
  if is_dirty x d then new else old.

(** The block's own update, given the dirty variables and the context.
    - The overlay follows [hasOverlay] itself, not its dirty bit: it is
      created when missing, brought back when [hasOverlay] is dirty, and
      otherwise sent on its way out, 150 ms, unless it (or the whole block)
      is on its way out already.
    - [data-modal-id], the width classes, the title text, and the window's
      [canScrollBody] and [hasCloseButton] are updated only when their
      variable is dirty. *)
Definition patch_block (d : list var) (p : Props) (closeOnButton : bool)
                       (b : Block) : Block :=
  let sh := shown b in
  {| shown :=
       {| modalId := pick v_modalId d (modalId p) (modalId sh);
          isOpen := true;
          title := pick v_title d (title p) (title sh);
          size := pick v_size d (size p) (size sh);
          allowClose := allowClose p;
          hasOverlay := hasOverlay p || hasOverlay sh;
          closeOn := closeOn p;
          canScrollBody := pick v_canScrollBody d (canScrollBody p)
                                (canScrollBody sh) |};
     shown_closeOnButton :=
       pick v_closeOnButton d closeOnButton (shown_closeOnButton b);
     leaving := leaving b;
     overlay_leaving :=
       if hasOverlay p then
         if hasOverlay sh then pick v_hasOverlay d None (overlay_leaving b)
         else None
       else if hasOverlay sh then
         match overlay_leaving b, leaving b with
         | None, None => Some duration
         | _, _ => overlay_leaving b
         end
       else None |}.

(** [if (dirty & isOpen) transition_in(block)]: a block on its way out comes
    back, and with it its overlay; a block that is not leaving is left as it
    is. *)
Definition reenter (d : list var) (b : Block) : Block :=
  match leaving b with
  | Some _ =>
      if is_dirty v_isOpen d
      then {| shown := shown b;
              shown_closeOnButton := shown_closeOnButton b;
              leaving := None;
              overlay_leaving := None |}
      else b
  | None => b
  end.

(** [transition_out(block)]: the block starts its 150 ms, unless it is on
    its way out already.  It is not updated any more. *)
Definition leave (b : Block) : Block :=
  match leaving b with
  | Some _ => b
  | None =>
      {| shown := shown b;
         shown_closeOnButton := shown_closeOnButton b;
         leaving := Some duration;
         overlay_leaving := overlay_leaving b |}
  end.

(** The fragment's update for [{#if isOpen}]. *)
Definition patch (d : list var) (p : Props) (closeOnButton : bool)
                 (blk : option Block) : option Block :=
  if isOpen p then
    match blk with
    | Some b => Some (reenter d (patch_block d p closeOnButton b))
    | None => Some (create_block p closeOnButton)
    end
  else
    match blk with
    | Some b => Some (leave b)
    | None => None
    end.

(** The end of an update: the document is patched with the variables that
    are dirty, and nothing is dirty any more. *)
Definition commit (s : state) : state :=
  {| props := props s; slots := slots s;
     closeOnButton := closeOnButton s; closeOnEsc := closeOnEsc s;
     closeOnOverlay := closeOnOverlay s;
     dirty := []; suspended := suspended s;
     dispatched := dispatched s;
     block := patch (dirty s) (props s) (closeOnButton s) (block s) |}.

(** What is left of a transition after [ms] more milliseconds: nothing when
    its time is over. *)
Definition remaining (ms : N) (t : option N) : option N :=
  match t with
  | Some r => if (r <=? ms)%N then None else Some (r - ms)%N
  | None => None
  end.

(** Whether a transition ends within [ms] more milliseconds. *)
Definition over (ms : N) (t : option N) : bool :=
  match t with
  | Some r => (r <=? ms)%N
  | None => false
  end.

(** The animation frame that comes after [ms] more milliseconds (time
    passes in no other step).  A block whose out-transitions are over is
    detached with everything in it; an overlay whose own out-transition is
    over is detached from its block. *)
Definition frame_block (ms : N) (b : Block) : option Block :=
  if over ms (leaving b) then None
  else Some {| shown := if over ms (overlay_leaving b)
                        then set_hasOverlay false (shown b)
                        else shown b;
               shown_closeOnButton := shown_closeOnButton b;
               leaving := remaining ms (leaving b);
               overlay_leaving := remaining ms (overlay_leaving b) |}.

Definition frame (ms : N) (s : state) : state :=
  with_block (match block s with
              | None => None
              | Some b => frame_block ms b
              end) s.

(** One view-update cycle: nothing to do for a clean instance. *)
Definition flush (s : state) : state :=
  match dirty s with
  | [] => s
  | _ :: _ => commit (update s)
  end.

(** The continuation of the oldest suspended call runs. *)
Definition resume (s : state) : state :=
  match suspended s with
  | [] => s
  | _isOpen :: rest => dispatchOpenOrClose_resumed _isOpen (with_suspended rest s)
  end.

Definition all_vars : list var :=
  [v_modalId; v_isOpen; v_title; v_size;
   v_allowClose; v_hasOverlay; v_closeOn; v_canScrollBody;
   v_closeOnButton; v_closeOnEsc; v_closeOnOverlay].

(** Instantiation: the script block runs with the parent's values, every
    reactive statement runs once (at creation everything counts as dirty),
    and the fragment is created from the resulting context. *)
Definition init (p : Props) (sl : Slots) : state :=
  commit (update {| props := p; slots := sl;
                    closeOnButton := false; closeOnEsc := false;
                    closeOnOverlay := false;
                    dirty := all_vars; suspended := [];
                    dispatched := []; block := None |}).

(** *** What can happen to an instance *)

(** [on:close={close}] on the wrapped window: the only window event the
    modal listens to. *)
Definition on_window_event (type : string) (s : state) : state :=
  if type =? "close" then close s else s.

Definition run_handler (key : string) (s : state) (h : handler) : state :=
  match h with
  | HandleKeydown => handleKeydown key s
  | HandleOverlayClick => handleOverlayClick s
  | HandleCloseButtonClick => on_window_event Window.handleCloseButtonClick s
  end.

Definition deliver (hs : list handler) (key : string) (s : state) : state :=
  fold_left (run_handler key) hs s.

Definition listening (event : string) (l : string * handler) : bool :=
  fst l =? event.

Inductive event : Set :=
| SetModalId (v : option ModalId)               (* the parent assigns a prop *)
| SetIsOpen (v : bool)
| SetTitle (v : option string)
| SetSize (v : ModalWidth)
| SetAllowClose (v : bool)
| SetHasOverlay (v : bool)
| SetCloseOn (v : list ModalCloseAction)
| SetCanScrollBody (v : bool)
| Keydown (key : string)    (* a key goes down, wherever the focus is *)
| Click (cls : string)      (* a click on the rendered node of that class *)
| Flush                     (* the scheduled view update runs *)
| Tick                      (* the oldest [await tick()] resumes *)
| Frame (ms : N).           (* [ms] milliseconds pass; an animation frame *)

Definition step (e : event) (s : state) : state :=
  let p := props s in
  match e with
  | SetModalId v =>
      invalidate v_modalId (negb (option_eqb ModalId_eqb (modalId p) v))
                 (set_modalId v p) s
  | SetIsOpen v =>
      invalidate v_isOpen (negb (Bool.eqb (isOpen p) v)) (set_isOpen v p) s
  | SetTitle v =>
      invalidate v_title (negb (option_eqb String.eqb (title p) v))
                 (set_title v p) s
  | SetSize v =>
      invalidate v_size (negb (ModalWidth_eqb (size p) v)) (set_size v p) s
  | SetAllowClose v =>
      invalidate v_allowClose (negb (Bool.eqb (allowClose p) v))
                 (set_allowClose v p) s
  | SetHasOverlay v =>
      invalidate v_hasOverlay (negb (Bool.eqb (hasOverlay p) v))
                 (set_hasOverlay v p) s
  | SetCloseOn v => invalidate v_closeOn true (set_closeOn v p) s
  | SetCanScrollBody v =>
      invalidate v_canScrollBody (negb (Bool.eqb (canScrollBody p) v))
                 (set_canScrollBody v p) s
  | Keydown key =>
      deliver (map snd (filter (listening "keydown") window_listeners)) key s
  | Click cls => deliver (listeners cls "click" (dom s)) "" s
  | Flush => flush s
  | Tick => resume s
  | Frame ms => frame ms s
  end.

Definition run (es : list event) (s : state) : state :=
  fold_left (fun s e => step e s) es s.

(** Every suspended call resumes, oldest first. *)
Definition drain (s : state) : state :=
  fold_left (fun s _ => resume s) (suspended s) s.

(** One task of the browser's event loop: the synchronous part [es], then
    the view update, then the continuations that waited for it. *)
Definition task (es : list event) (s : state) : state :=
  drain (flush (run es s)).

(** A freshly mounted instance, after its first task. *)
Definition mount (p : Props) (sl : Slots) : state :=
  task [] (init p sl).



(** The values [isOpen] takes along a run: one entry for each step that
    changes it. *)
Fixpoint transitions (es : list event) (s : state) : list bool :=
  match es with
  | [] => []
  | e :: es' =>
      (if Bool.eqb (isOpen (props (step e s))) (isOpen (props s)) then []
       else [isOpen (props (step e s))])
      ++ transitions es' (step e s)
  end.

(** What the reactive statement [$: void dispatchOpenOrClose(isOpen)] sees
    of a step: the value of [isOpen] when the step is a flush that finds
    [isOpen] dirty, nothing otherwise. *)
Definition observes (e : event) (s : state) : list bool :=
  match e with
  | Flush => if is_dirty v_isOpen (dirty s) then [isOpen (props s)] else []
  | _ => []
  end.

Fixpoint observed (es : list event) (s : state) : list bool :=
  match es with
  | [] => []
  | e :: es' => observes e s ++ observed es' (step e s)
  end.

(** The name of the notification for a value of [isOpen]. *)
Definition notification (b : bool) : string := if b then "open" else "close".

(** Every notification that has been dispatched or is still due, oldest
    first. *)
Definition backlog (s : state) : list string :=
  dispatched s ++ map notification (suspended s).



(** The events of the synchronous part of a task. *)
Definition synchronous (e : event) : bool :=
  match e with
  | Flush | Tick | Frame _ => false
  | _ => true
  end.

(** The states an instance can be in. *)
Inductive Reachable : state -> Prop :=
| reach_init p sl : Reachable (init p sl)
| reach_step e s : Reachable s -> Reachable (step e s).

(** The block the document should hold for a value of [isOpen]: present
    and staying when open; absent, or present and leaving, when closed. *)
Definition block_for (open : bool) (blk : option Block) : Prop :=
  match blk with
  | None => open = false
  | Some b => if open then leaving b = None else leaving b <> None
  end.

(** No transition has more than its 150 ms left, and what a block shows is
    an open modal. *)
Definition block_sane (blk : option Block) : Prop :=
  match blk with
  | None => True
  | Some b =>
      isOpen (shown b) = true /\
      (forall r, leaving b = Some r -> (r <= duration)%N) /\
      (forall r, overlay_leaving b = Some r -> (r <= duration)%N)
  end.

(** The reactive variables agree with the props unless an input of theirs is
    dirty; the document holds the block that [isOpen] asks for unless
    [isOpen] is dirty; and the block is sane. *)
Definition coherent (s : state) : Prop :=
  (is_dirty v_allowClose (dirty s) || is_dirty v_closeOn (dirty s) = false ->
   closeOnButton s = permission (props s) button /\
   closeOnEsc s = permission (props s) esc /\
   closeOnOverlay s = permission (props s) overlay) /\
  (is_dirty v_isOpen (dirty s) = false ->
   block_for (isOpen (props s)) (block s)) /\
  block_sane (block s).

(** The view update has run: nothing is dirty. *)
Definition flushed (s : state) : Prop := dirty s = [].

End IndependentModal.

(** ** api/connections.ts *)

Module Connections.

Inductive method : Set := GET | PATCH.

(** A JavaScript object sent as a request body: its fields, with their
    values serialised. *)
Definition object : Set := list (string * string).

Record request : Set := {
  req_method : method;
  req_url : string;
  req_body : option object
}.

(** What comes back for a request: no answer at all, or an HTTP status with
    a body. *)
Inductive response : Set :=
| NetworkFailure (message : string)
| Http (status : N) (body : string).

(** A settled promise. *)
Inductive outcome : Set :=
| Resolved (body : string)
| Rejected (failure : response).

(** The remote side: how it answers a request given the requests it has
    already received, and the requests sent so far, oldest first. *)
Record network : Type := {
  answer : list request -> request -> response;
  sent : list request
}.

Definition settle (r : response) : outcome :=
  match r with
  | NetworkFailure _ => Rejected r
  | Http status body =>
      if (200 <=? status)%N && (status <? 300)%N then Resolved body
      else Rejected r
  end.

Definition send (r : request) (n : network) : outcome * network :=
  (settle (answer n (sent n) r),
   {| answer := answer n; sent := sent n ++ [r] |}).

(** Modelled from the spec: [getAPI] of [./utils/requestUtils], which is not
    among the sources.  The spec's contract for the client is that network
    failures and non-2xx responses propagate as rejected operations, with no
    retry and no caching: one GET exchange, resolved with the body on a 2xx
    status and rejected with the failure otherwise. *)
Definition getAPI (url : string) (n : network) : outcome * network :=
  send {| req_method := GET; req_url := url; req_body := None |} n.

(** Modelled from the spec: [patchAPI] of [./utils/requestUtils], which is
    not among the sources; one PATCH exchange carrying the given data, settled
    like [getAPI]. *)
Definition patchAPI (url : string) (data : object) (n : network) : outcome * network :=
  send {| req_method := PATCH; req_url := url; req_body := Some data |} n.

(** Modelled from the spec: the type of a connection id ([Database['id']]
    of [@mathesar/AppTypes]) is not among the sources.  All that [update]
    does with an id is to interpolate it into a template literal, so the id
    type is a parameter, given with the string that the interpolation
    [${id}] yields for each of its values. *)
Class TemplateLiteral (Id : Type) : Type :=
  to_string : Id -> string.

(** A string is interpolated as it is. *)
#[export] Instance string_literal : TemplateLiteral string :=
  fun s => s.

(** [Number.MAX_SAFE_INTEGER], 2^53 - 1. *)
Definition MAX_SAFE_INTEGER : Z := 9007199254740991.

(** [Number.isSafeInteger], on integers. *)
Definition isSafeInteger (z : Z) : bool :=
  (Z.abs z <=? MAX_SAFE_INTEGER)%Z.

(** The numbers that hold a safe integer.  These, and among the integers
    only these, are all interpolated as their exact decimal numeral, with a
    minus sign when negative; a number beyond this range is printed from
    its shortest round-tripping digits, padded with zeros, and in exponent
    form from 1e21 on, and a number with a fraction is printed with it. *)
Record SafeInteger : Set := {
  value : Z;
  is_safe : isSafeInteger value = true
}.

#[export] Instance number_literal : TemplateLiteral SafeInteger :=
  fun i => NilZero.string_of_int (Z.to_int (value i)).

(** [function update(connectionId, properties)] *)
Definition update {Id : Type} `{TemplateLiteral Id}
  (connectionId : Id) (properties : object) (n : network) : outcome * network :=
  patchAPI ("/api/db/v0/connections/" ++ to_string connectionId ++ "/")
           properties n.

(** [function list()] *)
Definition list (n : network) : outcome * network :=
  getAPI "/api/db/v0/connections/?limit=500" n.

End Connections.

(** ** Configurations used as examples *)

Module Scenarios.
Import Dom IndependentModal.




(** An open modal with the empty string as title and no close trigger. *)
Definition bare_modal : Props :=
  {| modalId := None; isOpen := true; title := Some ""; size := regular;
     allowClose := true; hasOverlay := true;
     closeOn := []; canScrollBody := true |}.

(** A window with the empty string as title and no close button. *)
Definition bare_window : Window.Props :=
  {| Window.title := Some ""; Window.hasCloseButton := false;
     Window.canScrollBody := true; Window.hasBodyPadding := true |}.

(** No slot of the window is filled. *)
Definition unfilled : Window.Slots :=
  {| Window.slot_title := None; Window.slot_default := None;
     Window.slot_footer := None |}.

(** A connection with the id 42, and the fields of a renaming. *)
Definition connection_42 : Connections.SafeInteger :=
  {| Connections.value := 42; Connections.is_safe := eq_refl |}.

Definition renaming : Connections.object := [("db_name", "library")].

(** A server that refuses every request, one that cannot be reached, and
    one that accepts every request. *)
Definition refusing : Connections.network :=
  {| Connections.answer := fun _ _ => Connections.Http 403 "Forbidden";
     Connections.sent := [] |}.

Definition unreachable : Connections.network :=
  {| Connections.answer := fun _ _ => Connections.NetworkFailure "Failed to fetch";
     Connections.sent := [] |}.

Definition accepting : Connections.network :=
  {| Connections.answer := fun _ _ => Connections.Http 200 "{}";
     Connections.sent := [] |}.

End Scenarios.

(** ** Looking at fragments and runs *)

Module Observation.
Import Dom IndependentModal.

Definition node_children (n : node) : list node :=
  match n with
  | Text _ | Parent _ => []
  | Element _ _ _ children => children
  end.

(** What the nodes of class [cls] hold, in document order. *)
Definition children (cls : string) (fragment : list node) : list node :=
  flat_map node_children (with_class cls fragment).

(** The [class:width-...] directive that belongs to each width. *)
Definition width_class (w : ModalWidth) : string :=
  match w with
  | regular => "width-regular"
  | medium => "width-medium"
  | large => "width-large"
  end.

Definition modal_id_of (a : attr) : list ModalId :=
  match a with
  | DataModalId i => [i]
  | _ => []
  end.

(** The [data-modal-id] attributes found in a fragment. *)
Definition modal_ids (fragment : list node) : list ModalId :=
  flat_map (fun n => flat_map modal_id_of (node_attrs n))
           (flat_map flatten fragment).

(** The parent assigns [isOpen = true]. *)
Definition opens (e : event) : bool :=
  match e with
  | SetIsOpen true => true
  | _ => false
  end.

Definition is_flush (e : event) : bool :=
  match e with
  | Flush => true
  | _ => false
  end.

(** The instance between two tasks of the event loop: mounted, and then any
    number of tasks, each with a synchronous part of its own. *)
Inductive Quiet : state -> Prop :=
| quiet_mount p sl : Quiet (mount p sl)
| quiet_task es s :
    Quiet s -> forallb synchronous es = true -> Quiet (task es s)
| quiet_frame ms s : Quiet s -> Quiet (step (Frame ms) s).


(** An open modal that every trigger may close. *)
Definition dismissible_modal : Props :=
  {| modalId := Some (IdString "confirm"); isOpen := true;
     title := Some "Confirm"; size := medium;
     allowClose := true; hasOverlay := true;
     closeOn := [button; esc; overlay]; canScrollBody := false |}.

(** The same modal, closed. *)
Definition dismissed_modal : Props := set_isOpen false dismissible_modal.

(** Content for all three slots. *)
Definition filled_slots : Slots :=
  {| slot_title := Some "<b>Delete?</b>";
     slot_default := Some "<p>This cannot be undone.</p>";
     slot_footer := Some "<button>OK</button>" |}.

End Observation.

(** ** Properties of the modal *)

Module ModalTheory.
Import Dom IndependentModal Scenarios Observation.

#[local] Ltac case_bools :=
  repeat match goal with
         | |- context [if ?b then _ else _] => destruct b eqn:?
         end.

(** *** The template only reads the props, the slots and [closeOnButton] *)

Lemma render_make_dirty x s : render (make_dirty x s) = render s.
Proof. reflexivity. Qed.

Lemma render_with_suspended q s : render (with_suspended q s) = render s.
Proof. reflexivity. Qed.

Lemma render_dispatch type s : render (dispatch type s) = render s.
Proof. reflexivity. Qed.

Lemma render_commit s : render (commit s) = render s.
Proof. reflexivity. Qed.

(** *** Closing *)


Lemma close_isOpen s : isOpen (props (close s)) = false.
Proof.
  unfold close, invalidate.
  destruct (isOpen (props s)) eqn:E; simpl; [reflexivity | exact E].
Qed.





(** *** Coherence is an invariant *)

Lemma is_dirty_cons v x d : is_dirty v (x :: d) = var_eqb v x || is_dirty v d.
Proof. reflexivity. Qed.

Lemma is_dirty_app v d d' : is_dirty v (d ++ d') = is_dirty v d || is_dirty v d'.
Proof. apply existsb_app. Qed.

Lemma coherent_invalidate x changed p' s :
  coherent s ->
  (var_eqb v_allowClose x || var_eqb v_closeOn x = false ->
   allowClose p' = allowClose (props s) /\ closeOn p' = closeOn (props s)) ->
  (var_eqb v_isOpen x = false -> isOpen p' = isOpen (props s)) ->
  coherent (invalidate x changed p' s).
Proof.
  intros (Hperm & Hblock & Hsane) Hsame Hopen. unfold invalidate.
  destruct changed; [|split; [|split]; assumption].
  split; [|split];
    cbn [make_dirty with_props dirty props closeOnButton closeOnEsc
         closeOnOverlay block].
  - rewrite !is_dirty_cons. intros H.
    destruct (var_eqb v_allowClose x) eqn:Ea; [discriminate|].
    destruct (var_eqb v_closeOn x) eqn:Ec;
      [rewrite orb_true_r in H; discriminate|].
    simpl in H. destruct (Hsame eq_refl) as [Ha Hc].
    unfold permission. rewrite Ha, Hc. apply Hperm.
    destruct (is_dirty v_allowClose (dirty s)); [discriminate|exact H].
  - rewrite is_dirty_cons. intros H.
    apply orb_false_iff in H. destruct H as [Hx Hd].
    rewrite (Hopen Hx). now apply Hblock.
  - exact Hsane.
Qed.

Lemma coherent_close s : coherent s -> coherent (close s).
Proof.
  intros H. unfold close. apply coherent_invalidate; [assumption| |].
  - intros _. split; reflexivity.
  - discriminate.
Qed.

Lemma coherent_run_handler key s h : coherent s -> coherent (run_handler key s h).
Proof.
  intros H. destruct h; simpl.
  - unfold handleKeydown. case_bools; auto using coherent_close.
  - unfold handleOverlayClick. case_bools; auto using coherent_close.
  - unfold on_window_event. case_bools; auto using coherent_close.
Qed.

Lemma coherent_deliver hs key s : coherent s -> coherent (deliver hs key s).
Proof.
  unfold deliver. revert s.
  induction hs as [|h hs IH]; simpl; intros s H; auto using coherent_run_handler.
Qed.

Lemma update_props s : props (update s) = props s.
Proof. unfold update. case_bools; reflexivity. Qed.


Lemma update_block s : block (update s) = block s.
Proof. unfold update. case_bools; reflexivity. Qed.

Lemma update_isOpen_dirty s :
  is_dirty v_isOpen (dirty (update s)) = is_dirty v_isOpen (dirty s).
Proof.
  unfold update, changed_permissions.
  case_bools; cbn [dirty dispatchOpenOrClose with_suspended with_dirty];
    rewrite ?is_dirty_app; simpl; congruence.
Qed.

Lemma update_permissions s :
  coherent s ->
  closeOnButton (update s) = permission (props s) button /\
  closeOnEsc (update s) = permission (props s) esc /\
  closeOnOverlay (update s) = permission (props s) overlay.
Proof.
  intros (Hperm & _). unfold update.
  destruct (is_dirty v_allowClose (dirty s) || is_dirty v_closeOn (dirty s)) eqn:E.
  - case_bools; simpl; repeat split; reflexivity.
  - specialize (Hperm eq_refl). case_bools; simpl; exact Hperm.
Qed.

Lemma patch_block_overlay_bounded d p cb b :
  (forall r, overlay_leaving b = Some r -> (r <= duration)%N) ->
  forall r, overlay_leaving (patch_block d p cb b) = Some r -> (r <= duration)%N.
Proof.
  intros Ho r. cbn [patch_block overlay_leaving]. unfold pick.
  destruct (hasOverlay p), (hasOverlay (shown b));
    try destruct (is_dirty v_hasOverlay d); try discriminate; auto;
    destruct (overlay_leaving b) eqn:Eo, (leaving b); intros Hr;
    try discriminate; try (now apply Ho);
    injection Hr as <-; apply N.le_refl.
Qed.

Lemma block_sane_patch d p cb blk :
  block_sane blk -> block_sane (patch d p cb blk).
Proof.
  unfold patch. destruct blk as [b|], (isOpen p); cbn [block_sane]; try tauto.
  - intros (Hopen & Hl & Ho).
    pose proof (patch_block_overlay_bounded d p cb b Ho) as Ho'.
    unfold reenter. cbn [patch_block leaving].
    destruct (leaving b) eqn:El; [destruct (is_dirty v_isOpen d)|].
    + cbn [shown leaving overlay_leaving]. repeat split; discriminate.
    + split; [reflexivity|]. split; [|exact Ho'].
      cbn [patch_block leaving]. rewrite El. exact Hl.
    + split; [reflexivity|]. split; [|exact Ho'].
      cbn [patch_block leaving]. rewrite El. exact Hl.
  - intros (Hopen & Hl & Ho). unfold leave.
    destruct (leaving b) eqn:El.
    + split; [exact Hopen|]. split; [rewrite El; exact Hl | exact Ho].
    + cbn [shown leaving overlay_leaving].
      split; [exact Hopen|]. split; [|exact Ho].
      intros r Hr. injection Hr as <-. apply N.le_refl.
  - intros _. unfold create_block. cbn [shown leaving overlay_leaving].
    split; [reflexivity|]. split; discriminate.
Qed.

Lemma block_for_patch d p cb blk :
  (is_dirty v_isOpen d = false -> block_for (isOpen p) blk) ->
  block_for (isOpen p) (patch d p cb blk).
Proof.
  unfold patch, block_for. intros H.
  destruct (isOpen p), blk as [b|]; try reflexivity.
  - unfold reenter. cbn [patch_block leaving].
    destruct (leaving b) eqn:El; [|exact El].
    destruct (is_dirty v_isOpen d); [reflexivity|].
    specialize (H eq_refl). congruence.
  - unfold leave. destruct (leaving b) eqn:El; simpl; congruence.
Qed.

Lemma coherent_flush s : coherent s -> coherent (flush s).
Proof.
  intros H. unfold flush. destruct (dirty s) eqn:Ed; [assumption|]. clear Ed.
  destruct (update_permissions s H) as (Hb & He & Ho).
  destruct H as (_ & Hblock & Hsane).
  split; [|split]; cbn [commit dirty props closeOnButton closeOnEsc
                        closeOnOverlay block].
  - intros _. rewrite update_props. auto.
  - intros _. rewrite update_props, update_block. apply block_for_patch.
    rewrite update_isOpen_dirty. exact Hblock.
  - rewrite update_block. now apply block_sane_patch.
Qed.

Lemma coherent_resume s : coherent s -> coherent (resume s).
Proof.
  intros H. unfold resume. destruct (suspended s); [assumption|].
  exact H.
Qed.

Lemma remaining_some ms t r :
  remaining ms t = Some r -> exists r0, t = Some r0 /\ (r <= r0)%N.
Proof.
  unfold remaining. destruct t as [r0|]; [|discriminate].
  destruct (r0 <=? ms)%N; [discriminate|].
  intros H. injection H as <-. exists r0. split; [reflexivity|lia].
Qed.

Lemma coherent_frame ms s : coherent s -> coherent (frame ms s).
Proof.
  intros (Hperm & Hblock & Hsane).
  split; [exact Hperm|]. unfold frame. cbn [with_block dirty props block].
  destruct (block s) as [b|]; [|split; assumption].
  unfold frame_block, over. simpl in Hsane. destruct Hsane as (Hopen & Hl & Ho).
  split.
  - intros Hd. specialize (Hblock Hd). unfold block_for in *.
    destruct (leaving b) as [r|] eqn:El.
    + destruct (isOpen (props s)); [discriminate|].
      destruct (r <=? ms)%N eqn:E; [reflexivity|].
      cbn [leaving remaining]. rewrite E. discriminate.
    + destruct (isOpen (props s)); [reflexivity | congruence].
  - destruct (match leaving b with Some r => (r <=? ms)%N | None => false end);
      [exact I|].
    cbn [block_sane shown leaving overlay_leaving]. split; [|split].
    + destruct (match overlay_leaving b with
                | Some r => (r <=? ms)%N | None => false end);
        [destruct (shown b); exact Hopen | exact Hopen].
    + intros r Hr. apply remaining_some in Hr. destruct Hr as (r0 & Hr0 & Hle).
      specialize (Hl r0 Hr0). now apply N.le_trans with r0.
    + intros r Hr. apply remaining_some in Hr. destruct Hr as (r0 & Hr0 & Hle).
      specialize (Ho r0 Hr0). now apply N.le_trans with r0.
Qed.

Lemma coherent_init p sl : coherent (init p sl).
Proof.
  split; [|split].
  - intros _. repeat split; reflexivity.
  - intros _. cbn. unfold patch. destruct (isOpen p); reflexivity.
  - cbn. apply block_sane_patch. exact I.
Qed.

Lemma coherent_step e s : coherent s -> coherent (step e s).
Proof.
  intros H.
  destruct e; cbn [step];
    try (apply coherent_invalidate;
         [assumption
         | simpl; try discriminate; intros _; split; reflexivity
         | simpl; try discriminate; intros _; reflexivity]).
  - now apply coherent_deliver.
  - now apply coherent_deliver.
  - now apply coherent_flush.
  - now apply coherent_resume.
  - now apply coherent_frame.
Qed.

Lemma Reachable_coherent s : Reachable s -> coherent s.
Proof.
  induction 1; auto using coherent_init, coherent_step.
Qed.

Lemma Reachable_run es s : Reachable s -> Reachable (run es s).
Proof.
  unfold run. revert s.
  induction es as [|e es IH]; simpl; intros s H; [assumption|].
  apply IH. now constructor.
Qed.

(** After a flush the reactive variables are up to date, and the document
    holds the block that [isOpen] asks for. *)
Lemma flushed_in_sync s :
  Reachable s -> flushed s ->
  closeOnButton s = permission (props s) button /\
  closeOnEsc s = permission (props s) esc /\
  closeOnOverlay s = permission (props s) overlay /\
  block_for (isOpen (props s)) (block s) /\
  block_sane (block s).
Proof.
  intros Hr Hf. destruct (Reachable_coherent s Hr) as (Hperm & Hblock & Hsane).
  unfold flushed in Hf.
  rewrite Hf in Hperm, Hblock.
  destruct (Hperm eq_refl) as (Hb & He & Ho). specialize (Hblock eq_refl).
  split; [|split; [|split; [|split]]]; assumption.
Qed.

Lemma flush_flushed s : flushed (flush s).
Proof.
  unfold flushed, flush. destruct (dirty s) eqn:E; [exact E | reflexivity].
Qed.

(** *** What a fragment of the template contains *)

#[local] Ltac by_cases_on_template p sl b :=
  destruct p as [id o t sz a ov c sc], sl as [st sd sf];
  destruct o; [|reflexivity];
  destruct b, ov, sz, sc, st, sd, sf; try destruct id; reflexivity.



Lemma close_button_rendered p sl b :
  has_class "close-button" (render_modal p sl b) = isOpen p && b.
Proof. by_cases_on_template p sl b. Qed.

Lemma overlay_rendered p sl b :
  has_class "overlay" (render_modal p sl b) = isOpen p && hasOverlay p.
Proof. by_cases_on_template p sl b. Qed.

Lemma title_bar_rendered p sl b :
  has_class "title-bar" (render_modal p sl b) = isOpen p.
Proof. by_cases_on_template p sl b. Qed.

Lemma modal_rendered p sl b :
  has_class "modal" (render_modal p sl b) = isOpen p.
Proof. by_cases_on_template p sl b. Qed.


Lemma anchor_holds_modal_only_when_open p sl b :
  List.length (at_anchor (render_modal p sl b)) = if isOpen p then 1 else 0.
Proof. by_cases_on_template p sl b. Qed.

Lemma render_closed s : isOpen (props s) = false -> render s = [].
Proof. intros H. unfold render, render_modal. now rewrite H. Qed.

(** *** What the document contains *)



(** While a modal is open and flushed its block is in the document. *)
Lemma open_modal_in_document s :
  Reachable s -> flushed s -> isOpen (props s) = true ->
  has_class "modal" (dom s) = true.
Proof.
  intros Hr Hf Hopen.
  destruct (flushed_in_sync s Hr Hf) as (_ & _ & _ & Hblock & Hsane).
  unfold dom. rewrite Hopen in Hblock. unfold block_for in Hblock.
  destruct (block s) as [b|]; [|discriminate].
  rewrite modal_rendered. apply Hsane.
Qed.


(** *** Reachability of the states used below *)

Lemma Reachable_drain s : Reachable s -> Reachable (drain s).
Proof.
  unfold drain. generalize (suspended s) as q. intros q. revert s.
  induction q as [|b q IH]; simpl; intros s H; [assumption|].
  apply IH. exact (reach_step Tick s H).
Qed.

Lemma Reachable_task es s : Reachable s -> Reachable (task es s).
Proof.
  intros H. unfold task. apply Reachable_drain.
  apply (reach_step Flush). now apply Reachable_run.
Qed.

Lemma Reachable_mount p sl : Reachable (mount p sl).
Proof. apply Reachable_task. constructor. Qed.

(** *** Dismissal requests *)









(** *** The queue of suspended notifier calls *)

Lemma invalidate_queue x changed p s :
  suspended (invalidate x changed p s) = suspended s /\
  dispatched (invalidate x changed p s) = dispatched s.
Proof. destruct changed; split; reflexivity. Qed.

Lemma run_handler_queue key s h :
  suspended (run_handler key s h) = suspended s /\
  dispatched (run_handler key s h) = dispatched s.
Proof.
  destruct h; simpl;
    unfold handleKeydown, handleOverlayClick, on_window_event, close;
    case_bools; auto using invalidate_queue.
Qed.

Lemma deliver_queue hs key s :
  suspended (deliver hs key s) = suspended s /\
  dispatched (deliver hs key s) = dispatched s.
Proof.
  unfold deliver. revert s. induction hs as [|h hs IH]; simpl; intros s.
  - split; reflexivity.
  - destruct (IH (run_handler key s h)) as [-> ->].
    apply run_handler_queue.
Qed.

Lemma update_queue s :
  suspended (update s) =
    (suspended s ++ if is_dirty v_isOpen (dirty s) then [isOpen (props s)] else [])%list /\
  dispatched (update s) = dispatched s.
Proof.
  unfold update. case_bools; simpl; rewrite ?app_nil_r; split; reflexivity.
Qed.

(** Apart from the resumption itself, a step leaves the dispatched events
    alone and can only append to the queue, and what it appends is what the
    reactive statement observes. *)
Lemma step_queue e s :
  e <> Tick ->
  suspended (step e s) = (suspended s ++ observes e s)%list /\
  dispatched (step e s) = dispatched s.
Proof.
  intros He.
  destruct e; cbn [step observes]; rewrite ?app_nil_r;
    try apply invalidate_queue; try apply deliver_queue.
  - unfold flush. destruct (dirty s) eqn:Ed.
    + simpl. rewrite app_nil_r. split; reflexivity.
    + rewrite <- Ed. cbn [commit suspended dispatched]. apply update_queue.
  - contradiction.
  - split; reflexivity.
Qed.

Lemma resume_backlog s : backlog (resume s) = backlog s.
Proof.
  unfold resume, backlog. destruct (suspended s) as [|b q] eqn:E.
  - now rewrite E.
  - simpl. now rewrite <- app_assoc.
Qed.

Lemma step_backlog e s :
  backlog (step e s) = (backlog s ++ map notification (observes e s))%list.
Proof.
  destruct e;
    try (match goal with
         | |- context [step ?e s] =>
             destruct (step_queue e s ltac:(discriminate)) as [Hq Hd]
         end;
         unfold backlog; rewrite Hq, Hd, map_app, app_assoc; reflexivity).
  cbn [step observes map]. rewrite app_nil_r. apply resume_backlog.
Qed.

Lemma run_backlog es s :
  backlog (run es s) = (backlog s ++ map notification (observed es s))%list.
Proof.
  unfold run. revert s. induction es as [|e es IH]; intros s; simpl.
  - now rewrite app_nil_r.
  - rewrite IH, step_backlog, map_app, app_assoc. reflexivity.
Qed.

Lemma drain_spec s :
  drain s =
  {| props := props s; slots := slots s;
     closeOnButton := closeOnButton s; closeOnEsc := closeOnEsc s;
     closeOnOverlay := closeOnOverlay s;
     dirty := dirty s; suspended := [];
     dispatched := backlog s; block := block s |}.
Proof.
  unfold drain, backlog. destruct s as [p sl b e o d q ev dm]. simpl.
  revert ev. induction q as [|x q IH]; intros ev; simpl.
  - now rewrite app_nil_r.
  - unfold resume at 2. simpl. unfold dispatchOpenOrClose_resumed, dispatch.
    simpl. fold (notification x). rewrite IH, <- app_assoc. reflexivity.
Qed.


(** Draining leaves the document alone. *)
Lemma drain_dom s : dom (drain s) = dom s.
Proof. now rewrite drain_spec. Qed.

Lemma drain_render s : render (drain s) = render s.
Proof. now rewrite drain_spec. Qed.

(** *** Tasks *)

Lemma close_tracks s :
  is_dirty v_isOpen (dirty (close s)) =
    is_dirty v_isOpen (dirty s) || isOpen (props s) /\
  isOpen (props (close s)) = false.
Proof.
  split; [|apply close_isOpen].
  unfold close, invalidate. destruct (isOpen (props s)); simpl.
  - now rewrite orb_true_r.
  - now rewrite orb_false_r.
Qed.

(** A handler can close the modal but not open it, and it marks [isOpen]
    dirty exactly when it closes. *)
Lemma run_handler_tracks key s h :
  is_dirty v_isOpen (dirty (run_handler key s h)) =
    is_dirty v_isOpen (dirty s)
    || (isOpen (props s) && negb (isOpen (props (run_handler key s h)))) /\
  (isOpen (props (run_handler key s h)) = true -> isOpen (props s) = true).
Proof.
  assert (Hid : is_dirty v_isOpen (dirty s) =
                is_dirty v_isOpen (dirty s)
                || (isOpen (props s) && negb (isOpen (props s))))
    by (rewrite andb_negb_r; now rewrite orb_false_r).
  assert (Hcl : is_dirty v_isOpen (dirty (close s)) =
                is_dirty v_isOpen (dirty s)
                || (isOpen (props s) && negb (isOpen (props (close s)))))
    by (destruct (close_tracks s) as [-> ->]; simpl;
        now rewrite andb_true_r).
  assert (Hmono : isOpen (props (close s)) = true -> isOpen (props s) = true)
    by (rewrite close_isOpen; discriminate).
  destruct h; simpl;
    unfold handleKeydown, handleOverlayClick, on_window_event;
    case_bools; auto.
Qed.

Lemma deliver_tracks hs key s :
  is_dirty v_isOpen (dirty (deliver hs key s)) =
    is_dirty v_isOpen (dirty s)
    || (isOpen (props s) && negb (isOpen (props (deliver hs key s)))) /\
  (isOpen (props (deliver hs key s)) = true -> isOpen (props s) = true).
Proof.
  unfold deliver. revert s. induction hs as [|h hs IH]; intros s; simpl.
  - rewrite andb_negb_r, orb_false_r. auto.
  - destruct (IH (run_handler key s h)) as [Hd Hm].
    destruct (run_handler_tracks key s h) as [Hd1 Hm1].
    split; [|auto].
    rewrite Hd, Hd1.
    destruct (isOpen (props (fold_left (run_handler key) hs (run_handler key s h)))) eqn:E3;
      destruct (isOpen (props (run_handler key s h))) eqn:E2;
      destruct (isOpen (props s)) eqn:E1;
      destruct (is_dirty v_isOpen (dirty s)); simpl; try reflexivity.
    all: try (specialize (Hm eq_refl); discriminate).
    all: try (specialize (Hm1 eq_refl); discriminate).
Qed.

Lemma sync_step_tracks e s :
  synchronous e = true ->
  is_dirty v_isOpen (dirty (step e s)) =
    is_dirty v_isOpen (dirty s)
    || negb (Bool.eqb (isOpen (props (step e s))) (isOpen (props s))).
Proof.
  intros He.
  destruct e; try discriminate; cbn [step]; unfold invalidate;
    try (case_bools; simpl; rewrite ?Bool.eqb_reflx, ?orb_false_r; reflexivity).
  - destruct (isOpen (props s)) eqn:E, v; simpl;
      rewrite ?E; simpl; rewrite ?orb_false_r, ?orb_true_r; reflexivity.
  - destruct (deliver_tracks
                (map snd (filter (listening "keydown") window_listeners)) key s)
      as [-> Hm].
    destruct (isOpen (props (deliver _ key s))), (isOpen (props s));
      try reflexivity. specialize (Hm eq_refl). discriminate.
  - destruct (deliver_tracks (listeners cls "click" (dom s)) "" s) as [-> Hm].
    destruct (isOpen (props (deliver _ "" s))), (isOpen (props s));
      try reflexivity. specialize (Hm eq_refl). discriminate.
Qed.

Lemma last_cons_default {A : Type} (a d d' : A) (l : list A) :
  last (a :: l) d = last (a :: l) d'.
Proof.
  revert a. induction l as [|b l IH]; intros a; [reflexivity|].
  change (last (b :: l) d = last (b :: l) d'). apply IH.
Qed.

Lemma last_cons {A : Type} (a d : A) (l : list A) :
  last (a :: l) d = last l a.
Proof.
  destruct l as [|b l]; [reflexivity|].
  change (last (b :: l) d = last (b :: l) a). apply last_cons_default.
Qed.

Lemma sync_run_queue es s :
  forallb synchronous es = true ->
  suspended (run es s) = suspended s /\ dispatched (run es s) = dispatched s.
Proof.
  unfold run. revert s. induction es as [|e es IH]; intros s H; simpl in *.
  - split; reflexivity.
  - apply andb_prop in H. destruct H as [He Hes].
    destruct (IH (step e s) Hes) as [-> ->].
    assert (Hne : e <> Tick) by (intros ->; discriminate).
    destruct (step_queue e s Hne) as [-> ->].
    destruct e; try discriminate; simpl; rewrite ?app_nil_r; split; reflexivity.
Qed.

Lemma sync_run_tracks es s :
  forallb synchronous es = true ->
  is_dirty v_isOpen (dirty (run es s)) =
    is_dirty v_isOpen (dirty s)
    || match transitions es s with [] => false | _ :: _ => true end /\
  isOpen (props (run es s)) = last (transitions es s) (isOpen (props s)).
Proof.
  unfold run. revert s. induction es as [|e es IH]; intros s H; simpl in *.
  - rewrite orb_false_r. split; reflexivity.
  - apply andb_prop in H. destruct H as [He Hes].
    destruct (IH (step e s) Hes) as [Hd Hl]. rewrite Hd, Hl.
    rewrite (sync_step_tracks e s He).
    destruct (Bool.eqb (isOpen (props (step e s))) (isOpen (props s))) eqn:E;
      simpl.
    + apply Bool.eqb_prop in E. rewrite E, orb_false_r. split; reflexivity.
    + rewrite orb_true_r. simpl. split; [reflexivity|].
      symmetry. apply last_cons.
Qed.

Lemma flush_props s : props (flush s) = props s.
Proof.
  unfold flush. destruct (dirty s); [reflexivity|].
  cbn [commit props]. apply update_props.
Qed.



(** What a task dispatches, when it starts from a settled instance. *)
Lemma task_dispatched es s :
  flushed s -> suspended s = [] -> forallb synchronous es = true ->
  dispatched (task es s) =
    (dispatched s
     ++ match transitions es s with
        | [] => []
        | _ :: _ => [notification (last (transitions es s) (isOpen (props s)))]
        end)%list.
Proof.
  intros Hf Hq Hes. unfold task. rewrite drain_spec. cbn [dispatched].
  unfold backlog.
  destruct (step_queue Flush (run es s) ltac:(discriminate)) as [Hsq Hsd].
  cbn [step] in Hsq, Hsd. rewrite Hsq, Hsd. cbn [observes].
  destruct (sync_run_queue es s Hes) as [-> ->].
  destruct (sync_run_tracks es s Hes) as [-> ->].
  unfold flushed in Hf. rewrite Hf, Hq. simpl.
  destruct (transitions es s); reflexivity.
Qed.

(** *** The title bar *)

(** The window on its own, its slots filled (or not) by the application:
    the title bar is there exactly when a title slot is passed, the title is
    a non-empty string, or there is a close button. *)
Lemma window_title_bar_iff (p : Window.Props) (a b c : option string) :
  has_class "title-bar"
            (Window.render p {| Window.slot_title := parent_markup a;
                                Window.slot_default := parent_markup b;
                                Window.slot_footer := parent_markup c |})
  = has_slot (parent_markup a) || truthy (Window.title p) || Window.hasCloseButton p.
Proof.
  destruct p as [t hb sc pad].
  destruct a, b, c, hb, sc, pad, t as [t|]; try reflexivity;
    destruct t; reflexivity.
Qed.

(** *** Blocks that stay in the document *)

Lemma deliver_block hs key s :
  block (deliver hs key s) = block s /\ slots (deliver hs key s) = slots s.
Proof.
  unfold deliver. revert s. induction hs as [|h hs IH]; intros s; [split; reflexivity|].
  cbn [fold_left]. destruct (IH (run_handler key s h)) as [-> ->].
  destruct h; simpl;
    unfold handleKeydown, handleOverlayClick, on_window_event, close, invalidate;
    case_bools; split; reflexivity.
Qed.

Lemma sync_step_block e s :
  synchronous e = true ->
  block (step e s) = block s /\ slots (step e s) = slots s.
Proof.
  intros He. destruct e; try discriminate; cbn [step]; unfold invalidate;
    try (case_bools; split; reflexivity); apply deliver_block.
Qed.

Lemma sync_run_block es s :
  forallb synchronous es = true ->
  block (run es s) = block s /\ slots (run es s) = slots s.
Proof.
  unfold run. revert s. induction es as [|e es IH]; intros s H; simpl in *.
  - split; reflexivity.
  - apply andb_prop in H. destruct H as [He Hes].
    destruct (IH (step e s) Hes) as [-> ->]. now apply sync_step_block.
Qed.

(** The synchronous part of a task leaves the document as it is. *)
Lemma sync_run_dom es s :
  forallb synchronous es = true -> dom (run es s) = dom s.
Proof.
  intros H. unfold dom. now destruct (sync_run_block es s H) as [-> ->].
Qed.





(** *** Assignments wait for the view update *)





(** *** The claims *)
















(** C10. Creating the component runs the notifier once with the initial
    value of [isOpen], without any event having happened: one call is parked
    at creation and, after the first flush, its notification is the only one
    dispatched -- "close" for a modal mounted closed, "open" for one mounted
    open. *)
Theorem first_render_dispatches_initial_state (p : Props) (sl : Slots) :
  suspended (init p sl) = [isOpen p] /\
  dispatched (init p sl) = [] /\
  transitions [] (init p sl) = [] /\
  isOpen (props (mount p sl)) = isOpen p /\
  suspended (mount p sl) = [] /\
  dispatched (mount p sl) = [if isOpen p then "open" else "close"] /\
  dispatched (mount (set_isOpen false p) sl) = ["close"] /\
  dispatched (mount (set_isOpen true p) sl) = ["open"].
Proof. repeat split. Qed.

(** C8. One deferred notification per observed change, each with the value
    seen when it was scheduled, none cancelled or merged afterwards:
    - a flush that finds [isOpen] dirty parks exactly one call of the
      notifier, carrying the value [isOpen] has at that flush;
    - no step other than the resumption removes or alters a parked call or
      dispatches anything;
    - the resumption dispatches the value its call carries, whatever
      [isOpen] has become;
    - so over any run, the events dispatched once everything has resumed are
      those already due plus one per observation, in order;
    - and after open-then-close in quick succession "open" is dispatched
      while the modal is already closed again. *)
Theorem one_deferred_notification_per_observed_change (s : state) (es : list event) :
  suspended (step Flush s) =
    (suspended s
     ++ if is_dirty v_isOpen (dirty s) then [isOpen (props s)] else [])%list /\
  (forall e, e <> Tick ->
             suspended (step e s) = (suspended s ++ observes e s)%list /\
             dispatched (step e s) = dispatched s) /\
  (forall b q, suspended s = b :: q ->
               dispatched (step Tick s) = (dispatched s ++ [notification b])%list /\
               suspended (step Tick s) = q /\
               props (step Tick s) = props s) /\
  dispatched (drain (run es s)) =
    (dispatched s ++ map notification (suspended s ++ observed es s))%list /\
  (let r := run [SetIsOpen true; Flush; SetIsOpen false; Flush; Tick]
                (mount default_props no_slots) in
   dispatched r = ["close"; "open"] /\
   isOpen (props r) = false /\
   suspended r = [false] /\
   dispatched (drain r) = ["close"; "open"; "close"]).
Proof.
  split; [exact (proj1 (step_queue Flush s ltac:(discriminate)))|].
  split; [intros e He; now apply step_queue|].
  split.
  - intros b q Hq. cbn [step]. unfold resume. rewrite Hq. repeat split.
  - split; [|repeat split].
    rewrite drain_spec. cbn [dispatched]. rewrite run_backlog.
    unfold backlog. now rewrite map_app, app_assoc.
Qed.




(** C5, at an open modal with the empty string as title, nothing in its
    title slot and no close button.  The window used directly with these
    inputs leaves the title bar out.  Inside the modal the window is handed a
    title slot in every case (the wrapping [<div slot="title">]), so its test
    [$$slots.title || title || hasCloseButton] succeeds and an empty title
    bar is rendered; indeed every open modal has a title bar, whatever its
    title, its title slot and its permissions. *)
Theorem empty_title_bar_inside_modal :
  let s := mount bare_modal no_slots in
  (title (props s) = Some "" /\ slot_title (slots s) = None /\
   closeOnButton s = false) /\
  has_class "title-bar" (Window.render bare_window unfilled) = false /\
  Window.shows_title_bar (window_props (props s) (closeOnButton s))
                         (window_slots (props s) (slots s)) = true /\
  has_class "title-bar" (dom s) = true /\
  with_class "title-bar" (dom s) =
    [Element "div" ["title-bar"] []
             [Element "div" ["title"] []
                      [Element "div" [] [] [Text ""]; Text ""]]] /\
  (forall p sl b, has_class "title-bar" (render_modal p sl b) = isOpen p).
Proof.
  do 5 (split; [repeat split|]).
  apply title_bar_rendered.
Qed.

End ModalTheory.

(** ** Properties of the connections client *)

Module ConnectionsTheory.
Import Connections Scenarios.

Lemma append_slash_inj (a b : string) : a ++ "/" = b ++ "/" -> a = b.
Proof.
  revert b. induction a as [|c a IH]; intros [|d b] H; simpl in H.
  - reflexivity.
  - injection H as _ H. destruct b; discriminate.
  - injection H as _ H. destruct a; discriminate.
  - injection H as -> H. f_equal. exact (IH b H).
Qed.

Lemma to_uint_not_nil (p : positive) : Pos.to_uint p <> Decimal.Nil.
Proof.
  intros H. apply (f_equal Pos.of_uint) in H.
  rewrite DecimalPos.Unsigned.of_to in H. discriminate.
Qed.

(** The numeral of an integer determines it. *)
Lemma numeral_inj (a b : Z) :
  NilZero.string_of_int (Z.to_int a) = NilZero.string_of_int (Z.to_int b) ->
  a = b.
Proof.
  intros H. apply (f_equal NilZero.int_of_string) in H.
  assert (Hn : forall z, Z.to_int z <> Decimal.Pos Decimal.Nil /\
                         Z.to_int z <> Decimal.Neg Decimal.Nil).
  { intros [|p|p]; simpl; split; try discriminate;
      intros E; injection E as E; now apply to_uint_not_nil in E. }
  rewrite !NilZero.isi in H by apply Hn.
  injection H as H. apply (f_equal Z.of_int) in H.
  now rewrite !DecimalZ.of_to in H.
Qed.

Lemma SafeInteger_eq (i j : SafeInteger) : value i = value j -> i = j.
Proof.
  destruct i as [a Ha], j as [b Hb]. simpl. intros ->.
  f_equal. apply Eqdep_dec.UIP_dec, Bool.bool_dec.
Qed.

Lemma number_literal_inj (i j : SafeInteger) :
  to_string i = to_string j -> i = j.
Proof. intros H. now apply SafeInteger_eq, numeral_inj. Qed.

(** C9. [list] sends one GET to the fixed collection path
    [/api/db/v0/connections/] with [limit=500] in the query, and no body;
    [update] sends one PATCH, carrying the given fields, to
    [/api/db/v0/connections/<id>/], where [<id>] is the id as a template
    literal prints it -- [/api/db/v0/connections/42/] for the number 42 --
    so that different numbers give different paths.  Each call sends exactly
    that one request, also when the answer is a failure (no retry), after
    [list] no further page is asked for, and a second call sends the request
    again rather than reusing the first answer (no caching).  The operation
    settles with the answer to its one request: it resolves with the body
    of an answer with a 2xx status, and rejects with the failure as received
    after a network failure or any other status. *)
Theorem client_sends_one_request_and_propagates_outcome
  {Id : Type} `{TemplateLiteral Id}
  (n : network) (id : Id) (properties : object) :
  let listing :=
    {| req_method := GET;
       req_url := "/api/db/v0/connections/?limit=500";
       req_body := None |} in
  let patch :=
    {| req_method := PATCH;
       req_url := "/api/db/v0/connections/" ++ to_string id ++ "/";
       req_body := Some properties |} in
  (sent (snd (list n)) = (sent n ++ [listing])%list /\
   sent (snd (list (snd (list n)))) = (sent n ++ [listing; listing])%list /\
   sent (snd (update id properties n)) = (sent n ++ [patch])%list /\
   sent (snd (update id properties (snd (update id properties n))))
   = (sent n ++ [patch; patch])%list) /\
  (forall status body,
      answer n (sent n) listing = Http status body ->
      fst (list n) = if (200 <=? status)%N && (status <? 300)%N
                     then Resolved body
                     else Rejected (Http status body)) /\
  (forall message,
      answer n (sent n) listing = NetworkFailure message ->
      fst (list n) = Rejected (NetworkFailure message)) /\
  (forall status body,
      answer n (sent n) patch = Http status body ->
      fst (update id properties n)
      = if (200 <=? status)%N && (status <? 300)%N
        then Resolved body
        else Rejected (Http status body)) /\
  (forall message,
      answer n (sent n) patch = NetworkFailure message ->
      fst (update id properties n) = Rejected (NetworkFailure message)) /\
  (map req_url (sent (snd (update connection_42 properties n)))
   = (map req_url (sent n) ++ ["/api/db/v0/connections/42/"])%list /\
   map req_url (sent (snd (update "42" properties n)))
   = (map req_url (sent n) ++ ["/api/db/v0/connections/42/"])%list /\
   forall i j : SafeInteger,
     sent (snd (update i properties n)) = sent (snd (update j properties n)) ->
     i = j) /\
  (update connection_42 renaming refusing
   = (Rejected (Http 403 "Forbidden"),
      {| answer := answer refusing;
         sent := [{| req_method := PATCH;
                     req_url := "/api/db/v0/connections/42/";
                     req_body := Some [("db_name", "library")] |}] |}) /\
   fst (list unreachable) = Rejected (NetworkFailure "Failed to fetch") /\
   List.length (sent (snd (list unreachable))) = 1 /\
   fst (list accepting) = Resolved "{}").
Proof.
  intros listing patch.
  split.
  { repeat split; cbn; now rewrite <- ?app_assoc. }
  split.
  { intros status body E. cbn. fold listing. now rewrite E. }
  split.
  { intros message E. cbn. fold listing. now rewrite E. }
  split.
  { intros status body E. unfold update, patchAPI, send. cbn [fst].
    fold patch. now rewrite E. }
  split.
  { intros message E. unfold update, patchAPI, send. cbn [fst].
    fold patch. now rewrite E. }
  split; [|repeat split].
  split; [cbn; now rewrite map_app|].
  split; [cbn; now rewrite map_app|].
  intros i j E. cbn in E. apply app_inv_head in E.
  injection E as E.
  apply append_slash_inj in E.
  now apply number_literal_inj.
Qed.

End ConnectionsTheory.

(** ** Further properties of the modal and of the window *)

Module ModalCoverage.
Import Dom IndependentModal Scenarios Observation ModalTheory.

#[local] Ltac split_ifs :=
  repeat match goal with
         | |- context [if ?b then _ else _] => destruct b eqn:?
         end.

(** *** What a step can do to [isOpen] *)

Lemma resume_props s : props (resume s) = props s.
Proof. unfold resume. destruct (suspended s); reflexivity. Qed.

(** Only the parent opens the modal: a step other than the assignment
    [isOpen = true] ends open only if it started open. *)
Lemma step_does_not_open e s :
  opens e = false ->
  isOpen (props (step e s)) = true -> isOpen (props s) = true.
Proof.
  intros He.
  destruct e; cbn [step]; unfold invalidate;
    try (split_ifs; simpl; auto; fail).
  - destruct v; [discriminate|]. split_ifs; simpl; auto. discriminate.
  - apply deliver_tracks.
  - apply deliver_tracks.
  - now rewrite flush_props.
  - now rewrite resume_props.
Qed.

Lemma step_stays_closed e s :
  opens e = false -> isOpen (props s) = false ->
  isOpen (props (step e s)) = false.
Proof.
  intros He Hc. destruct (isOpen (props (step e s))) eqn:E; [|reflexivity].
  apply step_does_not_open in E; [congruence | exact He].
Qed.

Lemma run_stays_closed es s :
  forallb (fun e => negb (opens e)) es = true ->
  isOpen (props s) = false ->
  isOpen (props (run es s)) = false /\ transitions es s = [].
Proof.
  unfold run. revert s. induction es as [|e es IH]; intros s Hes Hc; simpl in *.
  - auto.
  - apply andb_prop in Hes. destruct Hes as [He Hes].
    apply negb_true_iff in He.
    pose proof (step_stays_closed e s He Hc) as Hc'.
    destruct (IH _ Hes Hc') as [Hrun Htr].
    rewrite Hrun, Htr, Hc', Hc. auto.
Qed.

(** Without an opening assignment [isOpen] changes at most once along a run,
    and then from true to false. *)
Lemma run_closes_at_most_once es s :
  forallb (fun e => negb (opens e)) es = true ->
  transitions es s = [] \/
  (transitions es s = [false] /\ isOpen (props s) = true).
Proof.
  revert s. induction es as [|e es IH]; intros s Hes; simpl in *.
  - now left.
  - apply andb_prop in Hes. destruct Hes as [He Hes].
    apply negb_true_iff in He.
    destruct (Bool.eqb (isOpen (props (step e s))) (isOpen (props s))) eqn:E.
    + apply Bool.eqb_prop in E. simpl.
      destruct (IH (step e s) Hes) as [H | [H Ho]]; [now left|].
      right. split; [exact H | congruence].
    + apply Bool.eqb_false_iff in E.
      destruct (isOpen (props (step e s))) eqn:E1.
      * apply step_does_not_open in E1; [congruence | exact He].
      * destruct (run_stays_closed es (step e s) Hes E1) as [_ ->].
        right. split; [reflexivity|].
        destruct (isOpen (props s)); congruence.
Qed.

(** X1. Only the parent opens the modal.  As long as it does not assign
    [isOpen = true], a closed modal stays closed through any key presses,
    clicks, other assignments, view updates and resumptions, and nothing is
    ever rendered for it. *)
Theorem closed_modal_never_opens_itself (s : state) (es : list event) :
  forallb (fun e => negb (opens e)) es = true ->
  isOpen (props s) = false ->
  isOpen (props (run es s)) = false /\
  transitions es s = [] /\
  render (run es s) = [].
Proof.
  intros Hes Hc. destruct (run_stays_closed es s Hes Hc) as [Hrun Htr].
  repeat split; try assumption. now apply render_closed.
Qed.

Lemma closed_modal_never_opens_itself_witness :
  let s := mount dismissed_modal filled_slots in
  let es := [Keydown "Enter"; Click "overlay"; SetTitle None; Flush;
             SetIsOpen false; Click "close-button"; Tick; Keydown "Escape"] in
  (forallb (fun e => negb (opens e)) es = true /\ isOpen (props s) = false) /\
  isOpen (props (run es s)) = false /\
  transitions es s = [] /\
  render (run es s) = [].
Proof.
  intros s es. split; [split; reflexivity|].
  apply (closed_modal_never_opens_itself s es); reflexivity.
Defined.

(** *** Dismissals within one task *)

Lemma task_props es s : props (task es s) = props (run es s).
Proof. unfold task. rewrite drain_spec. cbn [props]. apply flush_props. Qed.

(** X2. However many dismissals one task holds (key presses, clicks, the
    parent assigning [isOpen = false], mixed with other assignments), it
    dispatches "close" once if the modal went from open to closed and
    nothing otherwise. *)
Theorem dismissals_in_one_task_notify_once (s : state) (es : list event) :
  flushed s -> suspended s = [] ->
  forallb synchronous es = true ->
  forallb (fun e => negb (opens e)) es = true ->
  dispatched (task es s) =
    (dispatched s
     ++ if isOpen (props s) && negb (isOpen (props (task es s)))
        then ["close"] else [])%list.
Proof.
  intros Hf Hq Hsync Hes.
  rewrite (task_dispatched es s Hf Hq Hsync), task_props.
  destruct (sync_run_tracks es s Hsync) as [_ ->].
  destruct (run_closes_at_most_once es s Hes) as [-> | [-> ->]]; simpl.
  - now rewrite andb_negb_r.
  - reflexivity.
Qed.

Lemma dismissals_in_one_task_notify_once_witness :
  let s := mount dismissible_modal filled_slots in
  let es := [Keydown "Escape"; Click "overlay"; SetIsOpen false;
             Keydown "Escape"; Click "close-button"] in
  (flushed s /\ suspended s = [] /\
   forallb synchronous es = true /\
   forallb (fun e => negb (opens e)) es = true) /\
  dispatched (task es s) = ["open"; "close"] /\
  dispatched (task es s) =
    (dispatched s
     ++ if isOpen (props s) && negb (isOpen (props (task es s)))
        then ["close"] else [])%list.
Proof.
  intros s es. split; [repeat split|]. split; [reflexivity|].
  apply (dismissals_in_one_task_notify_once s es); reflexivity.
Defined.

(** *** A permitted dismissal *)







(** *** The overlay *)





(** *** Opening and dismissing *)





(** *** The log of dispatched events *)

Lemma step_appends e s :
  exists l, dispatched (step e s) = (dispatched s ++ l)%list /\
            List.length l <= 1 /\
            Forall (fun ev => ev = "open" \/ ev = "close") l.
Proof.
  destruct e;
    try (exists []; rewrite app_nil_r;
         split; [apply step_queue; discriminate | split; [simpl; lia | constructor]]).
  cbn [step]. unfold resume. destruct (suspended s) as [|b q].
  - exists []. rewrite app_nil_r. repeat split; [simpl; lia | constructor].
  - exists [notification b]. repeat split; [simpl; lia|].
    constructor; [destruct b; auto | constructor].
Qed.

(** X6. The only events the modal ever dispatches are "open" and "close";
    a step never removes or reorders what was dispatched before and adds at
    most one event. *)
Theorem only_open_and_close_are_dispatched (s : state) :
  Reachable s ->
  Forall (fun ev => ev = "open" \/ ev = "close") (dispatched s) /\
  (forall e, exists l, dispatched (step e s) = (dispatched s ++ l)%list /\
                       List.length l <= 1).
Proof.
  intros Hr. split.
  - induction Hr as [p sl | e s Hr IH]; [constructor|].
    destruct (step_appends e s) as (l & -> & _ & Hl).
    apply Forall_app. now split.
  - intros e. destruct (step_appends e s) as (l & Hd & Hlen & _).
    exists l. now split.
Qed.

Lemma only_open_and_close_are_dispatched_witness :
  let s := run [Tick; SetIsOpen false; Flush; Tick; SetIsOpen true; Flush]
               (init dismissible_modal filled_slots) in
  (Reachable s /\ dispatched s = ["open"; "close"] /\ suspended s = [true]) /\
  Forall (fun ev => ev = "open" \/ ev = "close") (dispatched s) /\
  (forall e, exists l, dispatched (step e s) = (dispatched s ++ l)%list /\
                       List.length l <= 1).
Proof.
  intros s.
  assert (Hr : Reachable s) by (apply Reachable_run; constructor).
  split; [split; [exact Hr | split; reflexivity]|].
  apply (only_open_and_close_are_dispatched s). exact Hr.
Defined.

Lemma observed_at_most_flushes es s :
  List.length (observed es s) <= List.length (filter is_flush es).
Proof.
  revert s. induction es as [|e es IH]; intros s; [simpl; lia|].
  cbn [observed filter]. rewrite length_app. specialize (IH (step e s)).
  assert (He : List.length (observes e s) <= if is_flush e then 1 else 0).
  { destruct e; simpl; try lia.
    destruct (is_dirty v_isOpen (dirty s)); simpl; lia. }
  destruct (is_flush e); cbn [List.length]; lia.
Qed.

(** X7. Notifications are paced by view updates, not by assignments or
    gestures: over any run, what has been dispatched plus what is still
    pending grows by one per flush that finds [isOpen] dirty, so a freshly
    created modal has dispatched at most one event more than the number of
    flushes it went through. *)
Theorem notifications_bounded_by_flushes (s : state) (es : list event) :
  List.length (dispatched (run es s)) + List.length (suspended (run es s))
  = List.length (dispatched s) + List.length (suspended s)
    + List.length (observed es s) /\
  List.length (observed es s) <= List.length (filter is_flush es) /\
  (forall p sl,
      List.length (dispatched (run es (init p sl)))
      <= 1 + List.length (filter is_flush es)).
Proof.
  assert (Hcount : forall s0,
             List.length (dispatched (run es s0)) + List.length (suspended (run es s0))
             = List.length (dispatched s0) + List.length (suspended s0)
               + List.length (observed es s0)).
  { intros s0. pose proof (run_backlog es s0) as H.
    apply (f_equal (@List.length string)) in H. unfold backlog in H.
    rewrite !length_app, !length_map in H. lia. }
  split; [apply Hcount|].
  split; [apply observed_at_most_flushes|].
  intros p sl. specialize (Hcount (init p sl)).
  pose proof (observed_at_most_flushes es (init p sl)).
  change (List.length (dispatched (init p sl))) with 0 in Hcount.
  change (List.length (suspended (init p sl))) with 1 in Hcount.
  lia.
Qed.

(** *** Between tasks *)

Lemma task_settles es s :
  Reachable s -> Reachable (task es s) /\ flushed (task es s) /\
                 suspended (task es s) = [].
Proof.
  intros Hr. split; [now apply Reachable_task|].
  unfold task. rewrite drain_spec. split; [apply flush_flushed | reflexivity].
Qed.

(** X8. Whenever the event loop is idle the parent is up to date: the
    instance is flushed with nothing pending, the three permissions are
    those of the current props, an open modal is in the document, and the
    last event that was dispatched names the current value of [isOpen]. *)
Theorem idle_instance_is_consistent (s : state) :
  Quiet s ->
  Reachable s /\ flushed s /\ suspended s = [] /\
  (closeOnButton s = permission (props s) button /\
   closeOnEsc s = permission (props s) esc /\
   closeOnOverlay s = permission (props s) overlay) /\
  (isOpen (props s) = true -> has_class "modal" (dom s) = true) /\
  last (dispatched s) "" = notification (isOpen (props s)).
Proof.
  intros Hq.
  assert (H : (Reachable s /\ flushed s /\ suspended s = []) /\
              last (dispatched s) "" = notification (isOpen (props s))).
  { induction Hq as [p sl | es s Hq [(Hr & Hf & Hs) Hlast] Hsync
                    | ms s Hq [(Hr & Hf & Hs) Hlast]].
    - split; [|reflexivity].
      unfold mount. apply task_settles. constructor.
    - split; [now apply task_settles|].
      rewrite (task_dispatched es s Hf Hs Hsync), task_props.
      destruct (sync_run_tracks es s Hsync) as [_ ->].
      destruct (transitions es s) as [|b l]; simpl last at 2.
      + now rewrite app_nil_r.
      + now rewrite last_last.
    - split; [|exact Hlast].
      split; [now constructor|]. split; assumption. }
  destruct H as [(Hr & Hf & Hs) Hlast].
  destruct (flushed_in_sync s Hr Hf) as (Hb & He & Ho & _).
  do 3 (split; [assumption|]).
  split; [now repeat split|].
  split; [now apply open_modal_in_document | exact Hlast].
Qed.

Lemma idle_instance_is_consistent_witness :
  let s := task [Keydown "Escape"; SetSize large]
                (step (Frame 16)
                      (task [SetIsOpen true; SetTitle (Some "Again")]
                            (mount dismissed_modal filled_slots))) in
  (Quiet s /\ dispatched s = ["close"; "open"; "close"]) /\
  Reachable s /\ flushed s /\ suspended s = [] /\
  (closeOnButton s = permission (props s) button /\
   closeOnEsc s = permission (props s) esc /\
   closeOnOverlay s = permission (props s) overlay) /\
  (isOpen (props s) = true -> has_class "modal" (dom s) = true) /\
  last (dispatched s) "" = notification (isOpen (props s)).
Proof.
  intros s.
  assert (Hq : Quiet s).
  { apply quiet_task; [|reflexivity]. apply quiet_frame.
    apply quiet_task; [|reflexivity]. apply quiet_mount. }
  split; [split; [exact Hq | reflexivity]|].
  apply (idle_instance_is_consistent s). exact Hq.
Defined.

(** X9. A view update brings the reactive variables in line with the
    props, whatever was assigned before it: the three permissions are
    [allowClose && closeOn.includes(...)] of the current props, the props
    themselves are untouched, an open modal is in the document afterwards,
    and a second update right after changes nothing. *)
Theorem view_update_synchronises (s : state) :
  Reachable s ->
  closeOnButton (flush s) = allowClose (props s) && includes (closeOn (props s)) button /\
  closeOnEsc (flush s) = allowClose (props s) && includes (closeOn (props s)) esc /\
  closeOnOverlay (flush s) = allowClose (props s) && includes (closeOn (props s)) overlay /\
  (isOpen (props s) = true -> has_class "modal" (dom (flush s)) = true) /\
  props (flush s) = props s /\
  flush (flush s) = flush s.
Proof.
  intros Hr.
  assert (Hr' : Reachable (flush s)) by exact (reach_step Flush s Hr).
  destruct (flushed_in_sync _ Hr' (flush_flushed s)) as (Hb & He & Ho & _).
  rewrite flush_props in Hb, He, Ho.
  do 3 (split; [assumption|]).
  split.
  { intros Hopen. apply open_modal_in_document;
      [exact Hr' | apply flush_flushed | now rewrite flush_props]. }
  split; [apply flush_props|].
  unfold flush at 1. now rewrite (flush_flushed s).
Qed.

Lemma view_update_synchronises_witness :
  let s := run [SetAllowClose false; SetCloseOn [esc]; SetTitle None]
               (mount dismissible_modal filled_slots) in
  (Reachable s /\ closeOnEsc s = true /\ closeOnButton s = true /\
   closeOnEsc (flush s) = false /\ closeOnButton (flush s) = false) /\
  closeOnButton (flush s) = allowClose (props s) && includes (closeOn (props s)) button /\
  closeOnEsc (flush s) = allowClose (props s) && includes (closeOn (props s)) esc /\
  closeOnOverlay (flush s) = allowClose (props s) && includes (closeOn (props s)) overlay /\
  (isOpen (props s) = true -> has_class "modal" (dom (flush s)) = true) /\
  props (flush s) = props s /\
  flush (flush s) = flush s.
Proof.
  intros s.
  assert (Hr : Reachable s) by (apply Reachable_run, Reachable_mount).
  split; [split; [exact Hr | repeat split]|].
  apply (view_update_synchronises s). exact Hr.
Defined.

(** *** The shape of the modal's fragment *)

#[local] Ltac by_template p sl b :=
  destruct p as [id o t sz a ov c sc], sl as [st sd sf];
  destruct o; [|reflexivity];
  destruct b, ov, sz, sc, st, sd, sf; try destruct id; reflexivity.

Lemma click_listeners_of_template p sl b :
  listeners_anywhere "click" (render_modal p sl b) =
  ((if isOpen p && hasOverlay p then [HandleOverlayClick] else [])
   ++ (if isOpen p && b then [HandleCloseButtonClick] else []))%list.
Proof. by_template p sl b. Qed.

Lemma modal_ids_of_template p sl b :
  modal_ids (render_modal p sl b) =
  if isOpen p then match modalId p with Some i => [i] | None => [] end else [].
Proof. by_template p sl b. Qed.

(** The first view update builds the document from the template. *)
Lemma mount_shows_template p sl : dom (mount p sl) = render (mount p sl).
Proof.
  unfold mount, task. rewrite drain_dom, drain_render.
  destruct p as [id o t sz a ov c sc]. destruct o; reflexivity.
Qed.

(** X10. What the template offers the user follows the policy.  Once the
    view update has run, the template of the instance has the overlay
    exactly when the modal is open with [hasOverlay], the close button
    exactly when it is open with [allowClose] and [button] in [closeOn];
    these two are its only nodes with a click listener (the overlay listens
    even when it is not a permitted trigger); an open modal is one node at
    the out-of-flow anchor, carrying its [modalId] when it has one; and the
    document of a freshly mounted modal is this template. *)
Theorem affordances_follow_policy (s : state) :
  Reachable s -> flushed s ->
  has_class "overlay" (render s) = isOpen (props s) && hasOverlay (props s) /\
  has_class "close-button" (render s)
  = isOpen (props s)
    && (allowClose (props s) && includes (closeOn (props s)) button) /\
  listeners_anywhere "click" (render s)
  = ((if isOpen (props s) && hasOverlay (props s)
      then [HandleOverlayClick] else [])
     ++ (if isOpen (props s)
            && (allowClose (props s) && includes (closeOn (props s)) button)
         then [HandleCloseButtonClick] else []))%list /\
  List.length (at_anchor (render s)) = (if isOpen (props s) then 1 else 0) /\
  modal_ids (render s)
  = (if isOpen (props s)
     then match modalId (props s) with Some i => [i] | None => [] end
     else []) /\
  (forall p sl, dom (mount p sl) = render (mount p sl)).
Proof.
  intros Hr Hf.
  destruct (flushed_in_sync s Hr Hf) as (Hb & _).
  unfold permission in Hb. unfold render.
  rewrite overlay_rendered, close_button_rendered, click_listeners_of_template,
    anchor_holds_modal_only_when_open, modal_ids_of_template, Hb.
  repeat split. apply mount_shows_template.
Qed.

Lemma affordances_follow_policy_witness :
  let s := task [SetCloseOn [esc]] (mount dismissible_modal filled_slots) in
  (Reachable s /\ flushed s) /\
  (has_class "overlay" (render s) = true /\
   has_class "close-button" (render s) = false /\
   listeners_anywhere "click" (render s) = [HandleOverlayClick] /\
   modal_ids (render s) = [IdString "confirm"] /\
   dom s = render s) /\
  has_class "overlay" (render s) = isOpen (props s) && hasOverlay (props s) /\
  has_class "close-button" (render s)
  = isOpen (props s)
    && (allowClose (props s) && includes (closeOn (props s)) button) /\
  listeners_anywhere "click" (render s)
  = ((if isOpen (props s) && hasOverlay (props s)
      then [HandleOverlayClick] else [])
     ++ (if isOpen (props s)
            && (allowClose (props s) && includes (closeOn (props s)) button)
         then [HandleCloseButtonClick] else []))%list /\
  List.length (at_anchor (render s)) = (if isOpen (props s) then 1 else 0) /\
  modal_ids (render s)
  = (if isOpen (props s)
     then match modalId (props s) with Some i => [i] | None => [] end
     else []) /\
  (forall p sl, dom (mount p sl) = render (mount p sl)).
Proof.
  intros s.
  assert (Hr : Reachable s) by apply Reachable_task, Reachable_mount.
  split; [split; [exact Hr | reflexivity]|].
  split; [repeat split|].
  apply (affordances_follow_policy s); [exact Hr | reflexivity].
Defined.

(** X11. The presentation classes of an open modal: its window positioner
    carries the width class of its [size] and of no other width; the window
    has [can-scroll-body] exactly when [canScrollBody] is set, and always has
    [has-body-padding], which the modal gives no way to turn off. *)
Theorem presentation_classes (p : Props) (sl : Slots) (b : bool) (w : ModalWidth) :
  has_class "window-positioner" (render_modal p sl b) = isOpen p /\
  has_class (width_class w) (render_modal p sl b)
  = isOpen p && ModalWidth_eqb (size p) w /\
  has_class "can-scroll-body" (render_modal p sl b)
  = isOpen p && canScrollBody p /\
  has_class "has-body-padding" (render_modal p sl b) = isOpen p.
Proof.
  destruct p as [id o t sz a ov c sc], sl as [st sd sf].
  destruct o; [|repeat split].
  destruct w, b, ov, sz, sc, st, sd, sf; repeat split.
Qed.

(** X12. Where the content ends up in an open modal.  What the
    application puts in the default slot is the whole content of the window's
    body, what it puts in the footer slot the whole content of the footer,
    and the title element holds one wrapper with the title slot's content
    followed by the [title] string, so the title is shown once; a closed modal
    shows none of it. *)
Theorem content_reaches_its_region (p : Props) (sl : Slots) (b : bool) :
  children "body" (render_modal p sl b)
  = (if isOpen p then slot (parent_markup (slot_default sl)) else []) /\
  children "footer" (render_modal p sl b)
  = (if isOpen p then slot (parent_markup (slot_footer sl)) else []) /\
  children "title" (render_modal p sl b)
  = (if isOpen p
     then [Element "div" [] []
                   (slot (parent_markup (slot_title sl))
                    ++ [Text (or_empty (title p))]);
           Text ""]
     else []).
Proof.
  destruct p as [id o t sz a ov c sc], sl as [st sd sf].
  destruct o; [|repeat split].
  destruct b, ov, sz, sc, st, sd, sf; repeat split.
Qed.

(** *** The window on its own *)

(** X13. The window used directly, its slots filled or not by the
    application.  The title bar is rendered exactly when a title slot is
    passed, the title is a non-empty string, or there is a close button; the
    close button is rendered exactly when [hasCloseButton] is set and is the
    only node with a click listener; body and footer are always rendered,
    even empty, and hold the default and the footer slot; the two class
    directives follow their flags. *)
Theorem window_chrome (p : Window.Props) (a b c : option string) :
  let sl := {| Window.slot_title := parent_markup a;
               Window.slot_default := parent_markup b;
               Window.slot_footer := parent_markup c |} in
  has_class "title-bar" (Window.render p sl)
  = has_slot (parent_markup a) || truthy (Window.title p)
    || Window.hasCloseButton p /\
  children "title" (Window.render p sl)
  = (if Window.shows_title_bar p sl
     then slot (parent_markup a) ++ [Text (or_empty (Window.title p))]
     else [])%list /\
  has_class "close-button" (Window.render p sl) = Window.hasCloseButton p /\
  listeners_anywhere "click" (Window.render p sl)
  = (if Window.hasCloseButton p then [HandleCloseButtonClick] else []) /\
  (has_class "body" (Window.render p sl) = true /\
   has_class "footer" (Window.render p sl) = true) /\
  (children "body" (Window.render p sl) = slot (parent_markup b) /\
   children "footer" (Window.render p sl) = slot (parent_markup c)) /\
  (has_class "can-scroll-body" (Window.render p sl) = Window.canScrollBody p /\
   has_class "has-body-padding" (Window.render p sl) = Window.hasBodyPadding p).
Proof.
  intros sl. subst sl.
  split; [apply window_title_bar_iff|].
  destruct p as [t hb sc pad].
  destruct a, b, c, hb, sc, pad, t as [t|]; try (repeat split; fail);
    destruct t; repeat split.
Qed.

End ModalCoverage.
